(** * Expat gross-to-net calculator: the tax engine of [streamlit_app.py]

    A shallow embedding of the computational core of the application:
    [sanitize_brackets], [apply_progressive], the India surcharge and cess
    branch and the US overlay block.

    Numbers.  The program computes with Python floats.  They are modelled
    here by exact rationals ([Q]); every statement below is about the
    arithmetic the code writes down, not about rounding.  Equality of
    amounts is therefore [Qeq] ([==]).

    Missing values.  A bracket table is a pandas [DataFrame] with the two
    columns [Upper_Limit] and [Rate], modelled as a list of rows; a missing
    cell ([None], which pandas stores as NaN in a numeric column) is
    modelled as [None : option Q].  Where the code reads a NaN instead of a
    [None] the result is the same:
    - a NaN rate passes the lambda of [sanitize_brackets] unchanged and is
      read as [0.0] by [apply_progressive], which is what a rate of [0.0]
      gives;
    - a NaN cap fails the test [cap is None], and then
      [max(0.0, min(rem, cap - prev_cap))] is [max(0.0, rem)], the value of
      the [cap is None] branch, because [min] keeps its first argument when
      the comparison with NaN is false.

    Sorting.  [sort_values] is called with the default sort kind, which
    does not promise an order for rows with equal caps.  [sort_brackets]
    is one sort by cap (it keeps such rows in input order) and
    [sort_brackets_rev] another (it reverses them).  What is stated of
    [sanitize_brackets] and [apply_progressive] below rests only on the
    result being a sorted rearrangement; the two properties that the order
    of tied caps can break (idempotence and progressivity) are stated for
    every sort by cap, through [sanitize_brackets_with] and
    [apply_progressive_with].

    Python's builtin [max] and [min] return their first argument unless a
    later one is strictly greater (resp. smaller); [py_max] and [py_min]
    follow that rule literally. *)

From Stdlib Require Import QArith Qminmax Lqa Lia Arith List Bool String Permutation.
Import ListNotations.
Local Open Scope Q_scope.

(** ** Comparisons and Python builtins *)

Definition Qlt_bool (a b : Q) : bool := negb (Qle_bool b a).

Definition py_max (a b : Q) : Q := if Qlt_bool a b then b else a.
Definition py_min (a b : Q) : Q := if Qlt_bool b a then b else a.

(** ** Data model *)

(** One row of a bracket table (a row of the [DataFrame]). *)
Record Bracket : Type := mkBracket {
  Upper_Limit : option Q;
  Rate : option Q
}.

(** One row of the slab breakdown; [To = None] is the open-ended slab. *)
Record SlabRow : Type := mkSlabRow {
  From : Q;
  To : option Q;
  SRate : Q;
  Amount : Q;
  Tax : Q
}.

(** ** [sanitize_brackets] *)

(** The lambda applied to the [Rate] column:
    [r/100.0 if (r is not None and r > 1) else (r or 0.0)]. *)
Definition sanitize_rate (r : option Q) : option Q :=
  match r with
  | Some x =>
      if Qlt_bool 1 x then Some (x / 100)
      else if Qeq_bool x 0 then Some 0
      else Some x
  | None => Some 0
  end.

(** Sort key of [sort_values(by=["Upper_Limit"], key=lambda s: s.fillna(np.inf))]:
    a missing cap compares as plus infinity. *)
Definition cap_le (a b : option Q) : bool :=
  match a, b with
  | _, None => true
  | None, Some _ => false
  | Some x, Some y => Qle_bool x y
  end.

(** The sort itself: a stable insertion sort on the key. *)
Fixpoint insert_bracket (x : Bracket) (l : list Bracket) : list Bracket :=
  match l with
  | [] => [x]
  | y :: l' =>
      if cap_le (Upper_Limit x) (Upper_Limit y) then x :: y :: l'
      else y :: insert_bracket x l'
  end.

Fixpoint sort_brackets (l : list Bracket) : list Bracket :=
  match l with
  | [] => []
  | x :: l' => insert_bracket x (sort_brackets l')
  end.

Definition is_na (c : option Q) : bool :=
  match c with None => true | Some _ => false end.

(** [out["Upper_Limit"].isna().sum()] *)
Definition count_na (l : list Bracket) : nat :=
  List.length (filter (fun b => is_na (Upper_Limit b)) l).

(** [out["Rate"] = out["Rate"].apply(...)] on one row: the cap is kept. *)
Definition sanitize_row (b : Bracket) : Bracket :=
  mkBracket (Upper_Limit b) (sanitize_rate (Rate b)).

(** [df is None or len(df) == 0] is the empty list; otherwise the rate
    convention, the sort, and the terminal row when no cap is missing. *)
Definition sanitize_brackets (df : list Bracket) : list Bracket :=
  match df with
  | [] => [mkBracket None (Some 0)]
  | _ =>
      let out := map sanitize_row df in
      let out := sort_brackets out in
      if Nat.eqb (count_na out) 0 then
        let last_rate := last (map Rate out) (Some 0) in
        out ++ [mkBracket None last_rate]
      else out
  end.

(** The cap of the last row of a table. *)
Definition last_cap (df : list Bracket) : option Q :=
  last (map Upper_Limit df) (Some 0).

(** Two tables hold the same caps and the same rates, as numbers. *)
Definition opt_Qeq_bool (a b : option Q) : bool :=
  match a, b with
  | Some x, Some y => Qeq_bool x y
  | None, None => true
  | _, _ => false
  end.

Fixpoint schedule_eqb (s1 s2 : list Bracket) : bool :=
  match s1, s2 with
  | [], [] => true
  | a :: s1', b :: s2' =>
      opt_Qeq_bool (Upper_Limit a) (Upper_Limit b) &&
      opt_Qeq_bool (Rate a) (Rate b) && schedule_eqb s1' s2'
  | _, _ => false
  end.

(** ** [apply_progressive] *)

(** [float(r["Rate"]) if not pd.isna(r["Rate"]) else 0.0] *)
Definition rate_of (b : Bracket) : Q :=
  match Rate b with Some r => r | None => 0 end.

(** The amount taxed in one slab, given what remains and the previous cap. *)
Definition slab_amount (cap : option Q) (rem prev_cap : Q) : Q :=
  match cap with
  | None => py_max 0 rem
  | Some c => py_max 0 (py_min rem (c - prev_cap))
  end.

(** The [for] loop over the rows of the sanitized table, with the loop
    variables [rem], [prev_cap], [tax] and [rows] passed explicitly.  The
    [break] on [rem <= 0] ends the iteration. *)
Fixpoint slab_loop (df : list Bracket) (rem prev_cap tax : Q)
    (rows : list SlabRow) : Q * list SlabRow :=
  match df with
  | [] => (tax, rows)
  | r :: rest =>
      let cap := Upper_Limit r in
      let rate := rate_of r in
      let slab_amt := slab_amount cap rem prev_cap in
      let slab_tax := slab_amt * rate in
      let rows' :=
        if Qlt_bool 0 slab_amt
        then rows ++ [mkSlabRow prev_cap cap rate slab_amt slab_tax]
        else rows in
      let tax' := tax + slab_tax in
      let rem' := rem - slab_amt in
      let prev_cap' := match cap with Some c => c | None => prev_cap end in
      if Qle_bool rem' 0 then (tax', rows')
      else slab_loop rest rem' prev_cap' tax' rows'
  end.

Definition apply_progressive (df : list Bracket) (amount : Q)
    : Q * list SlabRow :=
  if Qle_bool amount 0 then (0, [])
  else slab_loop (sanitize_brackets df) amount 0 0 [].

Definition sum_amount (rows : list SlabRow) : Q :=
  fold_right (fun r acc => Amount r + acc) 0 rows.

Definition sum_tax (rows : list SlabRow) : Q :=
  fold_right (fun r acc => Tax r + acc) 0 rows.

(** The widths of the capped slabs of a table, following [prev_cap] the
    way the loop does, and the amount that ended up in open-ended slabs. *)
Fixpoint finite_widths (df : list Bracket) (prev_cap : Q) : Q :=
  match df with
  | [] => 0
  | r :: rest =>
      match Upper_Limit r with
      | Some c => py_max 0 (c - prev_cap) + finite_widths rest c
      | None => finite_widths rest prev_cap
      end
  end.

Definition open_residual (rows : list SlabRow) : Q :=
  fold_right (fun r acc => if is_na (To r) then Amount r + acc else acc) 0 rows.

Definition capped_amount (rows : list SlabRow) : Q :=
  fold_right (fun r acc => if is_na (To r) then acc else Amount r + acc) 0 rows.

(** The tax charged by the loop as a function of what remains: the value
    added to [tax] by [slab_loop], without the accumulators. *)
Fixpoint tax_of (df : list Bracket) (rem prev_cap : Q) : Q :=
  match df with
  | [] => 0
  | r :: rest =>
      let cap := Upper_Limit r in
      let slab_amt := slab_amount cap rem prev_cap in
      let prev_cap' := match cap with Some c => c | None => prev_cap end in
      slab_amt * rate_of r +
      (if Qle_bool (rem - slab_amt) 0 then 0
       else tax_of rest (rem - slab_amt) prev_cap')
  end.

(** ** Schedules the properties are stated for *)

Definition rates_in_unit (df : list Bracket) : bool :=
  forallb (fun b => Qle_bool 0 (rate_of b) && Qle_bool (rate_of b) 1) df.

Fixpoint caps_ascending (df : list Bracket) : bool :=
  match df with
  | a :: (b :: _) as rest =>
      cap_le (Upper_Limit a) (Upper_Limit b) && caps_ascending rest
  | _ => true
  end.

Fixpoint rates_ascending (df : list Bracket) : bool :=
  match df with
  | a :: (b :: _) as rest =>
      Qle_bool (rate_of a) (rate_of b) && rates_ascending rest
  | _ => true
  end.

(** Every rate of the table, read as a percentage, is at most 100. *)
Definition rates_le_100 (df : list Bracket) : bool :=
  forallb (fun b => Qle_bool (rate_of b) 100) df.

(** The rate of a row is left alone by the rate convention. *)
Definition rate_fixed (b : Bracket) : Prop :=
  sanitize_rate (Rate b) = Rate b.

(** A valid bracket schedule: all rates in [0,1], caps ascending (a missing
    cap counts as plus infinity). *)
Definition valid_schedule (df : list Bracket) : bool :=
  rates_in_unit df && caps_ascending df.

(** Every rate of the table is at least [rho]. *)
Definition rates_ge (rho : Q) (df : list Bracket) : Prop :=
  Forall (fun b => rho <= rate_of b) df.

(** Rates never decrease along the table. *)
Fixpoint RatesAsc (df : list Bracket) : Prop :=
  match df with
  | [] => True
  | r :: rest => rates_ge (rate_of r) rest /\ RatesAsc rest
  end.

(** The table has a row with a missing cap. *)
Definition has_open (df : list Bracket) : Prop :=
  Exists (fun b => Upper_Limit b = None) df.

(** Sortedness seen from the head of the table. *)
Definition head_le (y : Bracket) (l : list Bracket) : Prop :=
  match l with
  | [] => True
  | z :: _ => cap_le (Upper_Limit y) (Upper_Limit z) = true
  end.

(** ** India: slabs, surcharge and cess *)

Record IndiaTax : Type := mkIndiaTax {
  base_tax : Q;
  sur_rate : Q;
  surcharge : Q;
  cess : Q;
  local_tax : Q;
  local_net : Q
}.

(** The [if]/[elif] ladder on [ti = float(total_comp)]. *)
Definition india_sur_rate (ti : Q) : Q :=
  if Qlt_bool 20000000 ti then 25 # 100
  else if Qlt_bool 10000000 ti then 15 # 100
  else if Qlt_bool 5000000 ti then 10 # 100
  else 0.

Definition india_tax (in_brackets : list Bracket) (total_comp : Q) : IndiaTax :=
  let base_tax := fst (apply_progressive in_brackets total_comp) in
  let ti := total_comp in
  let sur_rate := india_sur_rate ti in
  let surcharge := base_tax * sur_rate in
  let cess := (4 # 100) * (base_tax + surcharge) in
  let local_tax := base_tax + surcharge + cess in
  let local_net := total_comp - local_tax in
  mkIndiaTax base_tax sur_rate surcharge cess local_tax local_net.

(** ** US overlay *)

Inductive Country : Type :=
  Korea | Taiwan | Singapore | Japan | India | United_States.

Definition is_united_states (c : Country) : bool :=
  match c with United_States => true | _ => false end.

Record Overlay : Type := mkOverlay {
  us_taxable : Q;
  us_tax : Q;
  us_rows : list SlabRow;
  ftc : Q;
  us_due : Q;
  combined_tax : Q;
  combined_net : Q
}.

(** The [else] branch of [if fx <= 0]. *)
Definition us_overlay_calc (earned_usd rsu_usd local_tax_usd feie std_ded : Q)
    (us_brackets : list Bracket) : Overlay :=
  let us_taxable := py_max ((earned_usd + rsu_usd) - feie - std_ded) 0 in
  let '(us_tax, us_rows) := apply_progressive us_brackets us_taxable in
  let ftc := py_min local_tax_usd us_tax in
  let us_due := py_max (us_tax - ftc) 0 in
  let combined_tax := local_tax_usd + us_due in
  let combined_net := (earned_usd + rsu_usd) - combined_tax in
  mkOverlay us_taxable us_tax us_rows ftc us_due combined_tax combined_net.

(** What the overlay section of the page ends up showing. *)
Inductive OverlayOutcome : Type :=
  | OverlayDisabled (info : string)
  | OverlayOff
  | OverlayError (msg : string)
  | OverlayShown (o : Overlay).

Definition us_overlay_block (country : Country) (us_overlay : bool) (fx : Q)
    (earned_usd rsu_usd local_tax_usd feie std_ded : Q)
    (us_brackets : list Bracket) : OverlayOutcome :=
  if is_united_states country then
    OverlayDisabled "Overlay disabled because country of work is United States"
  else if us_overlay then
    if Qle_bool fx 0 then
      OverlayError "FX must be greater than zero for USD calculations."
    else
      OverlayShown
        (us_overlay_calc earned_usd rsu_usd local_tax_usd feie std_ded us_brackets)
  else OverlayOff.

Definition is_error (o : OverlayOutcome) : bool :=
  match o with OverlayError _ => true | _ => false end.

Definition is_shown (o : OverlayOutcome) : bool :=
  match o with OverlayShown _ => true | _ => false end.

(** ** Compensation and the local layer of each country *)

(** [total_comp = earned + y1_rsu] *)
Definition total_comp_of (earned y1_rsu : Q) : Q := earned + y1_rsu.

(** Taiwan: half of what is earned above 3,000,000 is exempt; RSUs are
    added after the exemption. *)
Definition taiwan_taxable_total (earned y1_rsu : Q) : Q :=
  let above := py_max (earned - 3000000) 0 in
  let exempt := (5 # 10) * above in
  let taxable_earned := py_max (earned - exempt) 0 in
  taxable_earned + y1_rsu.

(** The default tables of the editors. *)
Definition us_brackets_default : list Bracket :=
  [ mkBracket (Some 11600) (Some (10 # 100)); mkBracket (Some 47150) (Some (12 # 100));
    mkBracket (Some 100525) (Some (22 # 100)); mkBracket (Some 191950) (Some (24 # 100));
    mkBracket (Some 243725) (Some (32 # 100)); mkBracket (Some 609350) (Some (35 # 100));
    mkBracket None (Some (37 # 100)) ].

Definition tw_default : list Bracket :=
  [ mkBracket (Some 590000) (Some (5 # 100)); mkBracket (Some 1330000) (Some (12 # 100));
    mkBracket (Some 2660000) (Some (20 # 100)); mkBracket (Some 4980000) (Some (30 # 100));
    mkBracket None (Some (40 # 100)) ].

Definition in_default : list Bracket :=
  [ mkBracket (Some 400000) (Some 0); mkBracket (Some 800000) (Some (5 # 100));
    mkBracket (Some 1200000) (Some (10 # 100)); mkBracket (Some 1600000) (Some (15 # 100));
    mkBracket (Some 2000000) (Some (20 # 100)); mkBracket (Some 2400000) (Some (25 # 100));
    mkBracket None (Some (30 # 100)) ].

(** Local tax and net of the India branch, as a pair. *)
Definition india_local (in_brackets : list Bracket) (total_comp : Q) : Q * Q :=
  (local_tax (india_tax in_brackets total_comp),
   local_net (india_tax in_brackets total_comp)).

Module Page.

(** The variables the country section leaves behind for the overlay. *)
Record Local : Type := mkLocal {
  local_tax : Q;
  local_net : Q;
  earned_usd : Q;
  rsu_usd : Q;
  local_tax_usd : Q;
  local_net_usd : Q
}.

(** The [if fx > 0:] conversion shared by the non-US branches; without it
    the four USD variables keep their initial [0.0]. *)
Definition with_usd (fx earned y1_rsu local_tax local_net : Q) : Local :=
  if Qlt_bool 0 fx
  then mkLocal local_tax local_net (earned / fx) (y1_rsu / fx)
               (local_tax / fx) (local_net / fx)
  else mkLocal local_tax local_net 0 0 0 0.

(** The [if country == ...] chain.  [brackets] is the table of the selected
    country's editor; the United States branch reads the sidebar table
    [us_brackets] and converts nothing. *)
Definition local_layer (country : Country) (fx earned y1_rsu : Q)
    (brackets us_brackets : list Bracket) : Local :=
  let total_comp := total_comp_of earned y1_rsu in
  match country with
  | Korea =>
      let local_tax := total_comp * (21 # 100) in
      let local_net := total_comp - local_tax in
      with_usd fx earned y1_rsu local_tax local_net
  | Taiwan =>
      let taxable_total := taiwan_taxable_total earned y1_rsu in
      let local_tax := fst (apply_progressive brackets taxable_total) in
      let local_net := total_comp - local_tax in
      with_usd fx earned y1_rsu local_tax local_net
  | Singapore | Japan =>
      let local_tax := fst (apply_progressive brackets total_comp) in
      let local_net := total_comp - local_tax in
      with_usd fx earned y1_rsu local_tax local_net
  | India =>
      let '(local_tax, local_net) := india_local brackets total_comp in
      with_usd fx earned y1_rsu local_tax local_net
  | United_States =>
      let local_tax := fst (apply_progressive us_brackets total_comp) in
      let local_net := total_comp - local_tax in
      mkLocal local_tax local_net earned y1_rsu local_tax local_net
  end.

(** The overlay section fed with what the country section computed. *)
Definition overlay (country : Country) (us_overlay : bool)
    (fx feie std_ded earned y1_rsu : Q)
    (brackets us_brackets : list Bracket) : OverlayOutcome :=
  let l := local_layer country fx earned y1_rsu brackets us_brackets in
  us_overlay_block country us_overlay fx
    (earned_usd l) (rsu_usd l) (local_tax_usd l) feie std_ded us_brackets.

End Page.

(** ** Predicates used by the further properties *)

(** Every rate of the table lies between [lo] and [hi]. *)
Definition rates_between (lo hi : Q) (df : list Bracket) : Prop :=
  Forall (fun b => lo <= rate_of b /\ rate_of b <= hi) df.

(** Boolean form for raw tables: every rate is between 0 and 100. *)
Definition rates_0_100 (df : list Bracket) : bool :=
  forallb (fun b => Qle_bool 0 (rate_of b) && Qle_bool (rate_of b) 100) df.

Definition rates_nonneg (df : list Bracket) : bool :=
  forallb (fun b => Qle_bool 0 (rate_of b)) df.

(** No two rows of the table have the same cap (two missing caps count as
    the same cap). *)
Definition same_cap (a b : Bracket) : bool :=
  cap_le (Upper_Limit a) (Upper_Limit b) && cap_le (Upper_Limit b) (Upper_Limit a).

Fixpoint distinct_caps (df : list Bracket) : bool :=
  match df with
  | [] => true
  | b :: rest => forallb (fun b' => negb (same_cap b b')) rest && distinct_caps rest
  end.

(** The rows appended by the loop as a function of what remains: what
    [slab_loop] adds to [rows], without the accumulators. *)
Fixpoint rows_of (df : list Bracket) (rem prev_cap : Q) : list SlabRow :=
  match df with
  | [] => []
  | r :: rest =>
      let cap := Upper_Limit r in
      let slab_amt := slab_amount cap rem prev_cap in
      let prev_cap' := match cap with Some c => c | None => prev_cap end in
      (if Qlt_bool 0 slab_amt
       then [mkSlabRow prev_cap cap (rate_of r) slab_amt (slab_amt * rate_of r)]
       else []) ++
      (if Qle_bool (rem - slab_amt) 0 then []
       else rows_of rest (rem - slab_amt) prev_cap')
  end.

(** The rows of a breakdown tile the income from [start] upwards: each row
    starts where the rows before it end, and every row but the last is a
    capped slab filled up to its cap. *)
Fixpoint tiled (start : Q) (rows : list SlabRow) : Prop :=
  match rows with
  | [] => True
  | r :: rest =>
      From r == start /\
      (rest <> [] -> exists c, To r = Some c /\ c == start + Amount r) /\
      tiled (start + Amount r) rest
  end.

(** No cap of the table is negative. *)
Definition caps_nonneg (df : list Bracket) : bool :=
  forallb (fun b => match Upper_Limit b with
                    | Some c => Qle_bool 0 c
                    | None => true
                    end) df.

(** The first cap of the table, if any, is at least [prev]. *)
Definition head_ge (prev : Q) (df : list Bracket) : Prop :=
  match df with
  | [] => True
  | b :: _ => match Upper_Limit b with Some c => prev <= c | None => True end
  end.

(** The usual closed form of a progressive tax, for comparison with the
    loop: each capped slab from [prev] to its cap [c] taxes the part of the
    income [a] that falls between [prev] and [c], and the first open-ended
    slab taxes everything above [prev]. *)
Fixpoint bracket_formula (df : list Bracket) (prev a : Q) : Q :=
  match df with
  | [] => 0
  | b :: rest =>
      match Upper_Limit b with
      | Some c => rate_of b * Qmax 0 (Qmin a c - prev) + bracket_formula rest c a
      | None => rate_of b * Qmax 0 (a - prev)
      end
  end.

(** Equal caps force equal rows, among the rows of a table. *)
Definition caps_inj (l : list Bracket) : Prop :=
  forall a b, In a l -> In b l -> same_cap a b = true -> a = b.

(** A row of the breakdown is well formed: a positive amount, taxed at the
    row's rate, and within the width of a capped slab. *)
Definition row_ok (r : SlabRow) : Prop :=
  0 < Amount r /\ Tax r == Amount r * SRate r /\
  match To r with Some c => Amount r <= c - From r | None => True end.

(** ** Any sort by cap *)

(** A function that sorts a table by cap: its result is a rearrangement of
    its argument and is in ascending order of cap, missing caps last.
    Nothing is asked about rows with equal caps. *)
Definition sorts (srt : list Bracket -> list Bracket) : Prop :=
  (forall l, Permutation (srt l) l) /\
  (forall l, caps_ascending (srt l) = true).

(** A second sort by cap: insertion after the rows with the same cap, so
    that rows with equal caps come out in reverse input order. *)
Definition cap_lt (a b : option Q) : bool := negb (cap_le b a).

Fixpoint insert_bracket_rev (x : Bracket) (l : list Bracket) : list Bracket :=
  match l with
  | [] => [x]
  | y :: l' =>
      if cap_lt (Upper_Limit x) (Upper_Limit y) then x :: y :: l'
      else y :: insert_bracket_rev x l'
  end.

Fixpoint sort_brackets_rev (l : list Bracket) : list Bracket :=
  match l with
  | [] => []
  | x :: l' => insert_bracket_rev x (sort_brackets_rev l')
  end.

(** [sanitize_brackets] and [apply_progressive] with the sort left open. *)
Definition sanitize_brackets_with (srt : list Bracket -> list Bracket)
    (df : list Bracket) : list Bracket :=
  match df with
  | [] => [mkBracket None (Some 0)]
  | _ =>
      let out := map sanitize_row df in
      let out := srt out in
      if Nat.eqb (count_na out) 0 then
        let last_rate := last (map Rate out) (Some 0) in
        out ++ [mkBracket None last_rate]
      else out
  end.

Definition apply_progressive_with (srt : list Bracket -> list Bracket)
    (df : list Bracket) (amount : Q) : Q * list SlabRow :=
  if Qle_bool amount 0 then (0, [])
  else slab_loop (sanitize_brackets_with srt df) amount 0 0 [].

(** * Basic facts *)

Lemma Qlt_bool_true (a b : Q) : Qlt_bool a b = true <-> a < b.
Proof.
  unfold Qlt_bool. rewrite negb_true_iff.
  destruct (Qle_bool b a) eqn:E.
  - apply Qle_bool_iff in E. split; [discriminate | lra].
  - split; [intros _ | reflexivity].
    destruct (Qlt_le_dec a b) as [H | H]; [exact H |].
    apply Qle_bool_iff in H. congruence.
Qed.

Lemma Qlt_bool_false (a b : Q) : Qlt_bool a b = false <-> b <= a.
Proof.
  unfold Qlt_bool. rewrite negb_false_iff. apply Qle_bool_iff.
Qed.

Lemma Qle_bool_false (a b : Q) : Qle_bool a b = false <-> b < a.
Proof.
  destruct (Qle_bool a b) eqn:E.
  - apply Qle_bool_iff in E. split; [discriminate | lra].
  - split; [intros _ | reflexivity].
    destruct (Qlt_le_dec b a) as [H | H]; [exact H |].
    apply Qle_bool_iff in H. congruence.
Qed.

(** Case analysis on a strict comparison, leaving the order fact in the
    context. *)
Ltac case_lt a b :=
  let E := fresh "E" in
  destruct (Qlt_bool a b) eqn:E;
  [apply Qlt_bool_true in E | apply Qlt_bool_false in E].

Ltac case_le a b :=
  let E := fresh "E" in
  destruct (Qle_bool a b) eqn:E;
  [apply Qle_bool_iff in E | apply Qle_bool_false in E].

Lemma py_max_cases (a b : Q) :
  (a < b /\ py_max a b = b) \/ (b <= a /\ py_max a b = a).
Proof. unfold py_max. case_lt a b; auto. Qed.

Lemma py_min_cases (a b : Q) :
  (b < a /\ py_min a b = b) \/ (a <= b /\ py_min a b = a).
Proof. unfold py_min. case_lt b a; auto. Qed.

Lemma slab_amount_nonneg cap rem prev : 0 <= slab_amount cap rem prev.
Proof.
  unfold slab_amount. destruct cap as [c |].
  - destruct (py_max_cases 0 (py_min rem (c - prev))) as [[H ->] | [H ->]]; lra.
  - destruct (py_max_cases 0 rem) as [[H ->] | [H ->]]; lra.
Qed.

Lemma slab_amount_le_rem cap rem prev :
  0 <= rem -> slab_amount cap rem prev <= rem.
Proof.
  intros Hr. unfold slab_amount. destruct cap as [c |].
  - destruct (py_max_cases 0 (py_min rem (c - prev))) as [[H ->] | [H ->]];
      destruct (py_min_cases rem (c - prev)) as [[H' E] | [H' E]];
      rewrite ?E in *; lra.
  - destruct (py_max_cases 0 rem) as [[H ->] | [H ->]]; lra.
Qed.

Lemma slab_amount_open rem prev : 0 <= rem -> slab_amount None rem prev == rem.
Proof.
  intros Hr. unfold slab_amount.
  destruct (py_max_cases 0 rem) as [[H ->] | [H ->]]; lra.
Qed.

Lemma slab_amount_le_width c rem prev :
  slab_amount (Some c) rem prev <= py_max 0 (c - prev).
Proof.
  unfold slab_amount.
  destruct (py_max_cases 0 (py_min rem (c - prev))) as [[H ->] | [H ->]];
    destruct (py_min_cases rem (c - prev)) as [[H' E] | [H' E]];
    destruct (py_max_cases 0 (c - prev)) as [[H2 ->] | [H2 ->]];
    rewrite ?E in *; lra.
Qed.

Lemma sum_amount_app rows r : sum_amount (rows ++ [r]) == sum_amount rows + Amount r.
Proof. induction rows as [| x rows IH]; simpl; [lra | rewrite IH; lra]. Qed.

Lemma sum_tax_app rows r : sum_tax (rows ++ [r]) == sum_tax rows + Tax r.
Proof. induction rows as [| x rows IH]; simpl; [lra | rewrite IH; lra]. Qed.

Lemma capped_open_split rows : sum_amount rows == capped_amount rows + open_residual rows.
Proof.
  induction rows as [| x rows IH]; simpl; [lra |].
  destruct (is_na (To x)); lra.
Qed.

Lemma capped_amount_app rows r :
  capped_amount (rows ++ [r]) ==
  capped_amount rows + (if is_na (To r) then 0 else Amount r).
Proof.
  induction rows as [| x rows IH]; simpl.
  - destruct (is_na (To r)); lra.
  - destruct (is_na (To x)); rewrite IH; lra.
Qed.

Lemma finite_widths_nonneg df prev : 0 <= finite_widths df prev.
Proof.
  revert prev. induction df as [| b df IH]; intros prev; simpl; [lra |].
  destruct (Upper_Limit b) as [c |]; [| apply IH].
  specialize (IH c).
  destruct (py_max_cases 0 (c - prev)) as [[H ->] | [H ->]]; lra.
Qed.

(** * The slab loop *)

(** The rows account for the tax: an invariant of the loop. *)
Lemma slab_loop_sum_tax df : forall rem prev tax rows,
  sum_tax rows == tax ->
  sum_tax (snd (slab_loop df rem prev tax rows)) == fst (slab_loop df rem prev tax rows).
Proof.
  induction df as [| b df IH]; intros rem prev tax rows Hinv; simpl; [exact Hinv |].
  set (amt := slab_amount (Upper_Limit b) rem prev).
  assert (Hrows : sum_tax (if Qlt_bool 0 amt
                           then rows ++ [mkSlabRow prev (Upper_Limit b) (rate_of b) amt (amt * rate_of b)]
                           else rows) == tax + amt * rate_of b).
  { case_lt 0 amt.
    - rewrite sum_tax_app. simpl. lra.
    - pose proof (slab_amount_nonneg (Upper_Limit b) rem prev) as Hn. fold amt in Hn.
      assert (Hz : amt == 0) by lra. rewrite Hz. lra. }
  case_le (rem - amt) 0; simpl; [exact Hrows | apply IH; exact Hrows].
Qed.

(** With an open-ended row in the table nothing of a positive amount is
    left over. *)
Lemma slab_loop_sum_amount df : forall rem prev tax rows,
  has_open df -> 0 < rem ->
  sum_amount (snd (slab_loop df rem prev tax rows)) == sum_amount rows + rem.
Proof.
  induction df as [| b df IH]; intros rem prev tax rows Hopen Hrem.
  - inversion Hopen.
  - simpl.
    set (amt := slab_amount (Upper_Limit b) rem prev).
    pose proof (slab_amount_nonneg (Upper_Limit b) rem prev) as Hn.
    pose proof (slab_amount_le_rem (Upper_Limit b) rem prev ltac:(lra)) as Hle.
    fold amt in Hn, Hle.
    assert (Hrows : sum_amount (if Qlt_bool 0 amt
                           then rows ++ [mkSlabRow prev (Upper_Limit b) (rate_of b) amt (amt * rate_of b)]
                           else rows) == sum_amount rows + amt).
    { case_lt 0 amt; [rewrite sum_amount_app; simpl; lra | lra]. }
    case_le (rem - amt) 0; simpl.
    + rewrite Hrows. lra.
    + rewrite IH; [rewrite Hrows; lra | | lra].
      inversion Hopen as [? ? Hb | ? ? Hrest]; subst; [| exact Hrest].
      exfalso. unfold amt in E. rewrite Hb in E.
      pose proof (slab_amount_open rem prev ltac:(lra)). lra.
Qed.

(** Capped rows never hold more than the width of their slab. *)
Lemma slab_loop_capped df : forall rem prev tax rows,
  capped_amount (snd (slab_loop df rem prev tax rows))
  <= capped_amount rows + finite_widths df prev.
Proof.
  induction df as [| b df IH]; intros rem prev tax rows; simpl; [lra |].
  set (amt := slab_amount (Upper_Limit b) rem prev).
  pose proof (slab_amount_nonneg (Upper_Limit b) rem prev) as Hn. fold amt in Hn.
  set (rows' := if Qlt_bool 0 amt then _ else rows).
  set (prev' := match Upper_Limit b with Some c => c | None => prev end).
  assert (Hrows : capped_amount rows' + finite_widths df prev'
                  <= capped_amount rows +
                     match Upper_Limit b with
                     | Some c => py_max 0 (c - prev) + finite_widths df c
                     | None => finite_widths df prev
                     end).
  { unfold rows', prev'. destruct (Upper_Limit b) as [c |] eqn:Hc.
    - pose proof (slab_amount_le_width c rem prev) as Hw. fold amt in Hw.
      case_lt 0 amt; [rewrite capped_amount_app; simpl; lra | lra].
    - case_lt 0 amt; [rewrite capped_amount_app; simpl; lra | lra]. }
  pose proof (finite_widths_nonneg df prev') as Hf.
  case_le (rem - amt) 0; simpl.
  - lra.
  - specialize (IH (rem - amt) prev' (tax + amt * rate_of b) rows'). lra.
Qed.

(** * [sanitize_brackets] *)

Lemma sanitize_brackets_cons b df :
  sanitize_brackets (b :: df) =
  let out := sort_brackets (map sanitize_row (b :: df)) in
  if Nat.eqb (count_na out) 0
  then out ++ [mkBracket None (last (map Rate out) (Some 0))]
  else out.
Proof. reflexivity. Qed.

Lemma count_na_pos_has_open l : count_na l <> 0%nat -> has_open l.
Proof.
  unfold count_na, has_open. induction l as [| b l IH]; simpl; [congruence |].
  destruct (Upper_Limit b) eqn:Hb; simpl; intros H.
  - apply Exists_cons_tl, IH, H.
  - apply Exists_cons_hd, Hb.
Qed.

Lemma has_open_app_open l r : has_open (l ++ [mkBracket None r]).
Proof. apply Exists_app. right. apply Exists_cons_hd. reflexivity. Qed.

(** Whatever the input, the sanitized table has an open-ended row. *)
Lemma sanitize_has_open df : has_open (sanitize_brackets df).
Proof.
  destruct df as [| b df].
  - apply Exists_cons_hd. reflexivity.
  - rewrite sanitize_brackets_cons. cbv zeta.
    destruct (Nat.eqb _ 0) eqn:E.
    + apply has_open_app_open.
    + apply count_na_pos_has_open. apply Nat.eqb_neq, E.
Qed.

Lemma count_na_map l : count_na (map sanitize_row l) = count_na l.
Proof.
  unfold count_na. induction l as [| b l IH]; simpl; [reflexivity |].
  destruct (is_na (Upper_Limit b)); simpl; congruence.
Qed.

Lemma count_na_cons b l :
  count_na (b :: l) = ((if is_na (Upper_Limit b) then 1 else 0) + count_na l)%nat.
Proof. unfold count_na. simpl. destruct (is_na (Upper_Limit b)); reflexivity. Qed.

Lemma count_na_insert x l : count_na (insert_bracket x l) = count_na (x :: l).
Proof.
  induction l as [| y l IH]; [reflexivity |].
  simpl insert_bracket.
  destruct (cap_le (Upper_Limit x) (Upper_Limit y)); [reflexivity |].
  rewrite !count_na_cons, IH, count_na_cons. lia.
Qed.

Lemma count_na_sort l : count_na (sort_brackets l) = count_na l.
Proof.
  induction l as [| x l IH]; [reflexivity |].
  simpl sort_brackets.
  rewrite count_na_insert, !count_na_cons, IH. reflexivity.
Qed.

Lemma count_na_app_open l r : count_na (l ++ [mkBracket None r]) = S (count_na l).
Proof.
  induction l as [| x l IH]; [reflexivity |].
  simpl app. rewrite !count_na_cons, IH. lia.
Qed.

Lemma cap_le_total a b : cap_le a b = false -> cap_le b a = true.
Proof.
  destruct a as [x |], b as [y |]; simpl; try congruence.
  intros H. apply Qle_bool_false in H. apply Qle_bool_iff. lra.
Qed.

Lemma caps_ascending_cons y l :
  caps_ascending (y :: l) = true <-> head_le y l /\ caps_ascending l = true.
Proof.
  destruct l as [| z l]; simpl.
  - tauto.
  - rewrite andb_true_iff. tauto.
Qed.

Lemma caps_ascending_insert x l :
  caps_ascending l = true -> caps_ascending (insert_bracket x l) = true.
Proof.
  induction l as [| y l IH]; intros Hs; [reflexivity |].
  simpl insert_bracket.
  destruct (cap_le (Upper_Limit x) (Upper_Limit y)) eqn:E.
  - apply caps_ascending_cons. split; [exact E | exact Hs].
  - apply caps_ascending_cons in Hs. destruct Hs as [Hh Hs].
    apply caps_ascending_cons. split; [| apply IH, Hs].
    destruct l as [| z l]; simpl.
    + apply cap_le_total, E.
    + destruct (cap_le (Upper_Limit x) (Upper_Limit z));
        [apply cap_le_total, E | exact Hh].
Qed.

Lemma caps_ascending_sort l : caps_ascending (sort_brackets l) = true.
Proof.
  induction l as [| x l IH]; [reflexivity |].
  apply caps_ascending_insert, IH.
Qed.

Lemma caps_ascending_app_open l r :
  caps_ascending l = true -> caps_ascending (l ++ [mkBracket None r]) = true.
Proof.
  induction l as [| y l IH]; intros Hs; [reflexivity |].
  apply caps_ascending_cons in Hs. destruct Hs as [Hh Hs].
  simpl app. apply caps_ascending_cons. split; [| apply IH, Hs].
  destruct l as [| z l]; simpl; [| exact Hh].
  destruct (Upper_Limit y); reflexivity.
Qed.

Lemma last_cap_app_open l r : last_cap (l ++ [mkBracket None r]) = None.
Proof. unfold last_cap. rewrite map_app. simpl. apply last_last. Qed.

Lemma last_cap_cons y z l : last_cap (y :: z :: l) = last_cap (z :: l).
Proof. reflexivity. Qed.

(** In a table sorted by cap, an open-ended row can only be followed by
    open-ended rows, so the last one is open-ended. *)
Lemma sorted_has_open_last l :
  caps_ascending l = true -> has_open l -> last_cap l = None.
Proof.
  induction l as [| y l IH]; intros Hs Ho; [inversion Ho |].
  apply caps_ascending_cons in Hs. destruct Hs as [Hh Hs].
  destruct l as [| z l].
  - inversion Ho as [? ? Hy | ? ? Hn]; subst; [| inversion Hn].
    unfold last_cap. simpl. exact Hy.
  - rewrite last_cap_cons. apply IH; [exact Hs |].
    inversion Ho as [? ? Hy | ? ? Hn]; subst; [| exact Hn].
    apply Exists_cons_hd. simpl in Hh. rewrite Hy in Hh.
    destruct (Upper_Limit z); [discriminate | reflexivity].
Qed.

(** * Claims about [apply_progressive] *)

(** Scenario A of the specification. *)
Example scenario_A :
  fst (apply_progressive [mkBracket (Some 50000) (Some (1#10));
                          mkBracket None (Some (2#10))] 80000) == 11000.
Proof. vm_compute. reflexivity. Qed.


Lemma apply_progressive_le0 (df : list Bracket) (a : Q) :
  a <= 0 -> apply_progressive df a = (0, []).
Proof.
  intros Ha. unfold apply_progressive.
  apply Qle_bool_iff in Ha. rewrite Ha. reflexivity.
Qed.

(** C5.  For every table and every amount [a <= 0] (zero included),
    [apply_progressive] returns tax 0 and an empty list of slab rows. *)
Theorem apply_progressive_nonpositive (df : list Bracket) (a : Q) :
  a <= 0 -> apply_progressive df a = (0, []).
Proof.
  intros Ha. unfold apply_progressive.
  destruct (Qle_bool a 0) eqn:E; [reflexivity |].
  apply Qle_bool_iff in Ha. congruence.
Qed.

Lemma apply_progressive_nonpositive_witness :
  apply_progressive [mkBracket (Some 50000) (Some (1 # 10)); mkBracket None (Some (2 # 10))] 0
    = (0, [])
  /\ apply_progressive [] (- (5)) = (0, []).
Proof.
  split; apply apply_progressive_nonpositive; vm_compute; discriminate.
Defined.

(** C9.  Breakdown consistency: for every table and every amount, the
    total tax returned by [apply_progressive] is the sum of the [Tax]
    fields of the slab rows it returns. *)
Theorem apply_progressive_breakdown (df : list Bracket) (a : Q) :
  sum_tax (snd (apply_progressive df a)) == fst (apply_progressive df a).
Proof.
  unfold apply_progressive. destruct (Qle_bool a 0); simpl; [reflexivity |].
  apply slab_loop_sum_tax. reflexivity.
Qed.

(** C2.  For every table and every amount [a > 0], the [Amount] fields of
    the returned slab rows sum to [a] itself, which is also the minimum of
    [a] and the total capacity of the table (the widths of all capped slabs
    plus what the open-ended slab absorbed): nothing is counted twice and
    nothing is dropped. *)
Theorem apply_progressive_amounts (df : list Bracket) (a : Q) :
  0 < a ->
  let rows := snd (apply_progressive df a) in
  sum_amount rows == a /\
  sum_amount rows ==
    Qmin a (finite_widths (sanitize_brackets df) 0 + open_residual rows).
Proof.
  intros Ha rows.
  assert (Hsum : sum_amount rows == a).
  { unfold rows, apply_progressive.
    case_le a 0; [lra |].
    rewrite slab_loop_sum_amount; [simpl; lra | apply sanitize_has_open | exact Ha]. }
  split; [exact Hsum |].
  assert (Hcap : capped_amount rows <= finite_widths (sanitize_brackets df) 0).
  { unfold rows, apply_progressive.
    case_le a 0; [lra |].
    pose proof (slab_loop_capped (sanitize_brackets df) a 0 0 []) as H.
    simpl in H. lra. }
  pose proof (capped_open_split rows) as Hsplit.
  destruct (Q.min_spec a (finite_widths (sanitize_brackets df) 0 + open_residual rows))
    as [[H1 H2] | [H1 H2]]; rewrite H2; lra.
Qed.

Lemma apply_progressive_amounts_witness :
  let df := [mkBracket (Some 50000) (Some (1 # 10)); mkBracket None (Some (2 # 10))] in
  let rows := snd (apply_progressive df 80000) in
  sum_amount rows == 80000 /\
  sum_amount rows ==
    Qmin 80000 (finite_widths (sanitize_brackets df) 0 + open_residual rows).
Proof.
  apply (apply_progressive_amounts
           [mkBracket (Some 50000) (Some (1 # 10)); mkBracket None (Some (2 # 10))]
           80000).
  reflexivity.
Defined.

(** * Claims about [sanitize_brackets] *)

Lemma has_open_count_na l : has_open l -> count_na l <> 0%nat.
Proof.
  induction 1 as [b l Hb | b l Hl IH]; rewrite count_na_cons.
  - rewrite Hb. simpl. lia.
  - lia.
Qed.

Lemma sanitize_caps_ascending df : caps_ascending (sanitize_brackets df) = true.
Proof.
  destruct df as [| b df]; [reflexivity |].
  rewrite sanitize_brackets_cons. cbv zeta.
  destruct (Nat.eqb _ 0).
  - apply caps_ascending_app_open, caps_ascending_sort.
  - apply caps_ascending_sort.
Qed.

(** C3, as the code has it.  For every raw table the sanitized table is
    sorted by cap with missing caps last, its last row is open-ended, and
    it has as many open-ended rows as the input, or one when the input has
    none: exactly one open-ended row whenever the input has at most one. *)
Theorem sanitize_open_rows (df : list Bracket) :
  let s := sanitize_brackets df in
  count_na s = Nat.max 1 (count_na df) /\
  last_cap s = None /\
  caps_ascending s = true.
Proof.
  cbv zeta. split; [| split; [| apply sanitize_caps_ascending]].
  - destruct df as [| b df]; [reflexivity |].
    rewrite sanitize_brackets_cons. cbv zeta.
    set (out := sort_brackets (map sanitize_row (b :: df))).
    assert (Hc : count_na out = count_na (b :: df)).
    { unfold out. rewrite count_na_sort. apply count_na_map. }
    destruct (Nat.eqb (count_na out) 0) eqn:E.
    + apply Nat.eqb_eq in E. rewrite count_na_app_open. lia.
    + apply Nat.eqb_neq in E. lia.
  - apply sorted_has_open_last;
      [apply sanitize_caps_ascending | apply sanitize_has_open].
Qed.

(** C3, as stated, fails: two rows with a missing cap both survive. *)
Lemma sanitize_two_open_rows :
  let df := [mkBracket None (Some (1 # 10)); mkBracket None (Some (2 # 10))] in
  count_na (sanitize_brackets df) = 2%nat /\
  ~ (forall rows, count_na (sanitize_brackets rows) = 1%nat).
Proof.
  split; [reflexivity |].
  intros H.
  specialize (H [mkBracket None (Some (1 # 10)); mkBracket None (Some (2 # 10))]).
  vm_compute in H. discriminate.
Qed.

Lemma div_100_small x : 1 < x -> x <= 100 -> 0 < x / 100 /\ x / 100 <= 1.
Proof.
  intros H1 H2. split.
  - apply Qlt_shift_div_l; lra.
  - apply Qle_shift_div_r; lra.
Qed.

(** Applied to a rate of at most 100, the rate convention yields a rate it
    maps to itself. *)
Lemma sanitize_rate_fixed (b : Bracket) :
  rate_of b <= 100 -> rate_fixed (sanitize_row b).
Proof.
  unfold rate_fixed, rate_of, sanitize_row. simpl.
  destruct (Rate b) as [x |]; simpl; [| reflexivity].
  intros Hx. case_lt 1 x.
  - destruct (div_100_small x E Hx) as [Hpos Hle]. simpl.
    case_lt 1 (x / 100); [lra |].
    destruct (Qeq_bool (x / 100) 0) eqn:Ez; [| reflexivity].
    apply Qeq_bool_iff in Ez. lra.
  - destruct (Qeq_bool x 0) eqn:Ez; simpl.
    + reflexivity.
    + case_lt 1 x; [lra |]. rewrite Ez. reflexivity.
Qed.

Lemma Forall_insert_bracket (P : Bracket -> Prop) x l :
  P x -> Forall P l -> Forall P (insert_bracket x l).
Proof.
  intros Hx Hl. induction Hl as [| y l Hy Hl IH]; simpl.
  - constructor; [exact Hx | constructor].
  - destruct (cap_le (Upper_Limit x) (Upper_Limit y)); repeat constructor; assumption.
Qed.

Lemma Forall_sort_brackets (P : Bracket -> Prop) l :
  Forall P l -> Forall P (sort_brackets l).
Proof.
  induction 1 as [| x l Hx Hl IH]; simpl; [constructor |].
  apply Forall_insert_bracket; assumption.
Qed.

Lemma rate_fixed_last l :
  Forall rate_fixed l ->
  sanitize_rate (last (map Rate l) (Some 0)) = last (map Rate l) (Some 0).
Proof.
  induction 1 as [| x l Hx Hl IH]; [reflexivity |].
  destruct l as [| y l]; [exact Hx | exact IH].
Qed.

Lemma sanitize_rates_fixed df :
  rates_le_100 df = true -> Forall rate_fixed (sanitize_brackets df).
Proof.
  intros H. destruct df as [| b df].
  - repeat constructor.
  - rewrite sanitize_brackets_cons. cbv zeta.
    assert (Hout : Forall rate_fixed (sort_brackets (map sanitize_row (b :: df)))).
    { apply Forall_sort_brackets. apply Forall_map.
      unfold rates_le_100 in H. rewrite forallb_forall in H.
      apply Forall_forall. intros x Hin.
      apply sanitize_rate_fixed. apply Qle_bool_iff, H, Hin. }
    destruct (Nat.eqb _ 0); [| exact Hout].
    apply Forall_app. split; [exact Hout |].
    constructor; [| constructor].
    unfold rate_fixed. simpl. apply rate_fixed_last, Hout.
Qed.

Lemma map_sanitize_row_fixed l : Forall rate_fixed l -> map sanitize_row l = l.
Proof.
  induction 1 as [| x l Hx Hl IH]; simpl; [reflexivity |].
  rewrite IH. f_equal. destruct x as [c r]. unfold sanitize_row, rate_fixed in *.
  simpl in *. rewrite Hx. reflexivity.
Qed.

(** The stable sort leaves a sorted table alone. *)
Lemma sort_brackets_sorted l : caps_ascending l = true -> sort_brackets l = l.
Proof.
  induction l as [| x l IH]; intros Hs; [reflexivity |].
  apply caps_ascending_cons in Hs. destruct Hs as [Hh Hs].
  simpl. rewrite (IH Hs). destruct l as [| y l]; [reflexivity |].
  simpl in *. rewrite Hh. reflexivity.
Qed.

(** A table that is sorted, has an open-ended row and whose rates the rate
    convention leaves alone is a fixed point of [sanitize_brackets]. *)
Lemma sanitize_fixed_point s :
  Forall rate_fixed s -> caps_ascending s = true -> count_na s <> 0%nat ->
  sanitize_brackets s = s.
Proof.
  intros Hr Hs Hc. destruct s as [| b s]; [contradiction Hc; reflexivity |].
  rewrite sanitize_brackets_cons. cbv zeta.
  rewrite (map_sanitize_row_fixed _ Hr), (sort_brackets_sorted _ Hs).
  apply Nat.eqb_neq in Hc. rewrite Hc. reflexivity.
Qed.

(** C4, as stated, fails: a rate above 100 is divided by 100 once more on
    the second pass. *)
Lemma sanitize_not_idempotent :
  let df := [mkBracket None (Some 150)] in
  schedule_eqb (sanitize_brackets (sanitize_brackets df)) (sanitize_brackets df) = false /\
  map rate_of (sanitize_brackets df) = [150 / 100] /\
  map rate_of (sanitize_brackets (sanitize_brackets df)) = [150 / 100 / 100] /\
  ~ (forall rows,
       sanitize_brackets (sanitize_brackets rows) = sanitize_brackets rows).
Proof.
  repeat split.
  intros H. specialize (H [mkBracket None (Some 150)]).
  vm_compute in H. discriminate.
Qed.

(** * India: surcharge and cess *)

(** C6.  The India branch takes the base tax from the slabs on
    [total_comp], picks the surcharge rate by strict comparisons from the
    highest breakpoint down (25% above 20,000,000, else 15% above
    10,000,000, else 10% above 5,000,000, else 0), and sets
    surcharge = base tax * rate, cess = 4% of (base tax + surcharge),
    local tax = base tax + surcharge + cess.  Between 5,000,000
    (exclusive) and 10,000,000 (inclusive) the rate is exactly 10%. *)
Theorem india_surcharge_cess (in_brackets : list Bracket) (total_comp : Q) :
  let t := india_tax in_brackets total_comp in
  base_tax t = fst (apply_progressive in_brackets total_comp) /\
  (20000000 < total_comp -> sur_rate t = 25 # 100) /\
  (10000000 < total_comp <= 20000000 -> sur_rate t = 15 # 100) /\
  (5000000 < total_comp <= 10000000 -> sur_rate t = 10 # 100) /\
  (total_comp <= 5000000 -> sur_rate t = 0) /\
  surcharge t = base_tax t * sur_rate t /\
  cess t = (4 # 100) * (base_tax t + surcharge t) /\
  local_tax t = base_tax t + surcharge t + cess t /\
  local_net t = total_comp - local_tax t.
Proof.
  cbv zeta. unfold india_tax, india_sur_rate. simpl.
  repeat split; try reflexivity; intros H;
    case_lt 20000000 total_comp; try lra;
    case_lt 10000000 total_comp; try lra;
    case_lt 5000000 total_comp; try lra; reflexivity.
Qed.

Lemma india_surcharge_cess_witness :
  let br := [mkBracket (Some 400000) (Some 0); mkBracket (Some 800000) (Some (5 # 100));
             mkBracket None (Some (30 # 100))] in
  sur_rate (india_tax br 5000001) = 10 # 100 /\
  sur_rate (india_tax br 10000000) = 10 # 100 /\
  sur_rate (india_tax br 5000000) = 0 /\
  sur_rate (india_tax br 10000001) = 15 # 100 /\
  sur_rate (india_tax br 20000001) = 25 # 100.
Proof.
  cbv zeta.
  set (br := [mkBracket (Some 400000) (Some 0); mkBracket (Some 800000) (Some (5 # 100));
              mkBracket None (Some (30 # 100))]).
  split; [| split; [| split; [| split]]].
  - apply (india_surcharge_cess br 5000001). split; [reflexivity | discriminate].
  - apply (india_surcharge_cess br 10000000). split; [reflexivity | discriminate].
  - apply (india_surcharge_cess br 5000000). discriminate.
  - apply (india_surcharge_cess br 10000001). split; [reflexivity | discriminate].
  - apply (india_surcharge_cess br 20000001). reflexivity.
Defined.

(** * US overlay *)

Lemma py_max_Qmax a b : py_max a b == Qmax a b.
Proof.
  destruct (py_max_cases a b) as [[H ->] | [H ->]];
    destruct (Q.max_spec a b) as [[H' ->] | [H' ->]]; lra.
Qed.

Lemma py_min_Qmin a b : py_min a b == Qmin a b.
Proof.
  destruct (py_min_cases a b) as [[H ->] | [H ->]];
    destruct (Q.min_spec a b) as [[H' ->] | [H' ->]]; lra.
Qed.

(** C7.  The overlay computes: taxable base = max(earned + RSU - exclusion
    - standard deduction, 0); tentative tax from the home schedule on that
    base; credit used = min(local tax, tentative tax), so the credit never
    exceeds the tentative tax nor the foreign tax paid; tax due =
    max(tentative tax - credit, 0); combined tax = local tax + tax due;
    combined net = earned + RSU - combined tax.  With a local tax of 20000
    and a tentative tax of 15000 the credit is 15000 and the tax due 0. *)
Theorem us_overlay_calc_spec
    (earned_usd rsu_usd local_tax_usd feie std_ded : Q) (us_brackets : list Bracket) :
  0 <= earned_usd -> 0 <= rsu_usd -> 0 <= local_tax_usd -> 0 <= feie -> 0 <= std_ded ->
  let o := us_overlay_calc earned_usd rsu_usd local_tax_usd feie std_ded us_brackets in
  us_taxable o == Qmax ((earned_usd + rsu_usd) - feie - std_ded) 0 /\
  (us_tax o, us_rows o) = apply_progressive us_brackets (us_taxable o) /\
  ftc o == Qmin local_tax_usd (us_tax o) /\
  ftc o <= us_tax o /\ ftc o <= local_tax_usd /\
  us_due o == Qmax (us_tax o - ftc o) 0 /\
  combined_tax o == local_tax_usd + us_due o /\
  combined_net o == (earned_usd + rsu_usd) - combined_tax o /\
  (local_tax_usd == 20000 -> us_tax o == 15000 -> ftc o == 15000 /\ us_due o == 0).
Proof.
  intros _ _ _ _ _. cbv zeta. unfold us_overlay_calc.
  destruct (apply_progressive us_brackets
              (py_max (earned_usd + rsu_usd - feie - std_ded) 0)) as [tax rows] eqn:Happ.
  simpl.
  pose proof (py_min_Qmin local_tax_usd tax) as Hmin.
  pose proof (py_max_Qmax (tax - py_min local_tax_usd tax) 0) as Hmax.
  destruct (Q.min_spec local_tax_usd tax) as [[Hm1 Hm2] | [Hm1 Hm2]];
    destruct (Q.max_spec (tax - py_min local_tax_usd tax) 0) as [[Hx1 Hx2] | [Hx1 Hx2]];
    (repeat split; intros;
     first [ apply py_max_Qmax | symmetry; exact Happ | exact Hmin | exact Hmax | lra ]).
Qed.

Lemma us_overlay_calc_spec_witness :
  let o := us_overlay_calc 241100 0 20000 126500 14600 [mkBracket None (Some (15 # 100))] in
  us_taxable o == 100000 /\ us_tax o == 15000 /\ ftc o == 15000 /\ us_due o == 0 /\
  combined_tax o == 20000 /\ combined_net o == 221100.
Proof.
  cbv zeta.
  pose proof (us_overlay_calc_spec 241100 0 20000 126500 14600
                [mkBracket None (Some (15 # 100))]
                ltac:(discriminate) ltac:(discriminate) ltac:(discriminate)
                ltac:(discriminate) ltac:(discriminate)) as H.
  cbv zeta in H.
  destruct H as (_ & _ & _ & _ & _ & _ & _ & _ & H).
  destruct (H ltac:(reflexivity) ltac:(reflexivity)) as [Hf Hd].
  split; [reflexivity | split; [reflexivity | split; [exact Hf | split; [exact Hd |]]]].
  split; reflexivity.
Defined.

(** C8.  With the overlay requested (work country other than the United
    States, overlay switched on), an FX rate that is zero or negative
    yields the error with its message and no overlay figures; the overlay
    section reports the error exactly when the overlay is requested and
    [fx <= 0], and shows figures exactly when it is requested and
    [fx > 0]. *)
Theorem overlay_blocked_on_nonpositive_fx
    (country : Country) (us_overlay : bool) (fx : Q)
    (earned_usd rsu_usd local_tax_usd feie std_ded : Q) (us_brackets : list Bracket) :
  let b := us_overlay_block country us_overlay fx
             earned_usd rsu_usd local_tax_usd feie std_ded us_brackets in
  (fx <= 0 -> is_shown b = false) /\
  (fx <= 0 -> is_united_states country = false -> us_overlay = true ->
   b = OverlayError "FX must be greater than zero for USD calculations.") /\
  (is_error b = true <->
   is_united_states country = false /\ us_overlay = true /\ fx <= 0) /\
  (is_shown b = true <->
   is_united_states country = false /\ us_overlay = true /\ 0 < fx).
Proof.
  cbv zeta. unfold us_overlay_block.
  destruct (is_united_states country), us_overlay; simpl;
    case_le fx 0; simpl; repeat split; intros; try reflexivity; try lra;
    try discriminate; try tauto;
    repeat match goal with H : _ /\ _ |- _ => destruct H end;
    try discriminate; try lra.
Qed.

Lemma overlay_blocked_on_nonpositive_fx_witness :
  us_overlay_block India true 0 1000 0 200 126500 14600 [mkBracket None (Some (1 # 10))]
    = OverlayError "FX must be greater than zero for USD calculations."
  /\ is_shown (us_overlay_block Japan true (- (3)) 1000 0 200 126500 14600
                 [mkBracket None (Some (1 # 10))]) = false.
Proof.
  split.
  - apply (proj1 (proj2 (overlay_blocked_on_nonpositive_fx India true 0 1000 0 200
                            126500 14600 [mkBracket None (Some (1 # 10))])));
      [discriminate | reflexivity | reflexivity].
  - apply (proj1 (overlay_blocked_on_nonpositive_fx Japan true (- (3)) 1000 0 200
                     126500 14600 [mkBracket None (Some (1 # 10))])).
    vm_compute. discriminate.
Defined.

(** * Negative rates *)

(** C10.  The rate convention has no lower bound: a rate [x <= 1] keeps
    its value, a negative one included.  A single open-ended row with a
    negative rate [r] therefore gives, for every amount [a > 0], a strictly
    negative tax, and a net above the gross amount. *)
Theorem negative_rate_passes_through (x r a : Q) :
  x <= 1 -> r < 0 -> 0 < a ->
  let tax := fst (apply_progressive [mkBracket None (Some r)] a) in
  (exists x', sanitize_brackets [mkBracket None (Some x)] = [mkBracket None (Some x')]
              /\ x' == x) /\
  sanitize_brackets [mkBracket None (Some r)] = [mkBracket None (Some r)] /\
  tax == a * r /\ tax < 0 /\ a < a - tax.
Proof.
  intros Hx Hr Ha. cbv zeta.
  assert (Hs : sanitize_brackets [mkBracket None (Some r)] = [mkBracket None (Some r)]).
  { rewrite sanitize_brackets_cons. unfold sanitize_row. simpl.
    case_lt 1 r; [lra |].
    destruct (Qeq_bool r 0) eqn:Ez; [apply Qeq_bool_iff in Ez; lra | reflexivity]. }
  assert (Ht : fst (apply_progressive [mkBracket None (Some r)] a) == a * r).
  { unfold apply_progressive. case_le a 0; [lra |].
    rewrite Hs. simpl. unfold rate_of. simpl.
    pose proof (slab_amount_open a 0 ltac:(lra)) as Ho. unfold slab_amount in Ho.
    destruct (Qle_bool (a - py_max 0 a) 0); simpl; rewrite Ho; lra. }
  split; [| split; [exact Hs | split; [exact Ht |]]].
  - rewrite sanitize_brackets_cons. unfold sanitize_row. simpl.
    case_lt 1 x; [lra |].
    destruct (Qeq_bool x 0) eqn:Ez.
    + exists 0. split; [reflexivity | apply Qeq_bool_iff in Ez; lra].
    + exists x. split; reflexivity.
  - assert (a * r < 0) by nra. lra.
Qed.

Lemma negative_rate_passes_through_witness :
  exists (rows : list Bracket) (a : Q),
    0 < a /\
    fst (apply_progressive rows a) < 0 /\
    a < a - fst (apply_progressive rows a).
Proof.
  exists [mkBracket None (Some (- (1 # 2)))], 100.
  split; [reflexivity |].
  apply (negative_rate_passes_through (- (1 # 2)) (- (1 # 2)) 100);
    [vm_compute; discriminate | reflexivity | reflexivity].
Defined.

(** * Monotonicity and progressivity *)

Lemma slab_loop_tax df : forall rem prev tax rows,
  fst (slab_loop df rem prev tax rows) == tax + tax_of df rem prev.
Proof.
  induction df as [| b df IH]; intros rem prev tax rows; simpl; [lra |].
  destruct (Qle_bool (rem - slab_amount (Upper_Limit b) rem prev) 0); simpl.
  - lra.
  - rewrite IH. lra.
Qed.

Lemma slab_amount_nonpos cap rem prev : rem <= 0 -> slab_amount cap rem prev == 0.
Proof.
  intros Hr. unfold slab_amount. destruct cap as [c |].
  - destruct (py_max_cases 0 (py_min rem (c - prev))) as [[H ->] | [H ->]];
      destruct (py_min_cases rem (c - prev)) as [[H' E] | [H' E]];
      rewrite ?E in *; lra.
  - destruct (py_max_cases 0 rem) as [[H ->] | [H ->]]; lra.
Qed.

Lemma tax_of_nonpos df rem prev : rem <= 0 -> tax_of df rem prev == 0.
Proof.
  intros Hr. destruct df as [| b df]; simpl; [lra |].
  pose proof (slab_amount_nonpos (Upper_Limit b) rem prev Hr) as Hz.
  case_le (rem - slab_amount (Upper_Limit b) rem prev) 0; [| lra].
  rewrite Hz. lra.
Qed.

(** One iteration, with the [break] folded into the recursive call. *)
Lemma tax_of_step b df rem prev :
  tax_of (b :: df) rem prev ==
  slab_amount (Upper_Limit b) rem prev * rate_of b +
  tax_of df (rem - slab_amount (Upper_Limit b) rem prev)
    (match Upper_Limit b with Some c => c | None => prev end).
Proof.
  simpl.
  case_le (rem - slab_amount (Upper_Limit b) rem prev) 0; [| lra].
  rewrite (tax_of_nonpos df _ _ E). lra.
Qed.

(** How the amounts taken by one slab from two incomes compare. *)
Lemma slab_amount_pair cap prev x1 x2 :
  0 <= x1 -> x1 <= x2 ->
  let a1 := slab_amount cap x1 prev in
  let a2 := slab_amount cap x2 prev in
  0 <= a1 /\ a1 <= a2 /\ 0 <= x1 - a1 /\ x1 - a1 <= x2 - a2 /\
  (0 < x1 - a1 -> a1 == a2) /\
  (cap = None -> x2 - a2 <= 0).
Proof.
  intros H1 H12. cbv zeta. unfold slab_amount. destruct cap as [c |].
  - destruct (py_min_cases x1 (c - prev)) as [[Hm1 Em1] | [Hm1 Em1]];
      destruct (py_min_cases x2 (c - prev)) as [[Hm2 Em2] | [Hm2 Em2]];
      rewrite Em1, Em2;
      destruct (py_max_cases 0 (c - prev)) as [[Hw Ew] | [Hw Ew]];
      destruct (py_max_cases 0 x1) as [[Hx1 Ex1] | [Hx1 Ex1]];
      destruct (py_max_cases 0 x2) as [[Hx2 Ex2] | [Hx2 Ex2]];
      rewrite ?Ew, ?Ex1, ?Ex2;
      repeat split; intros; try discriminate; lra.
  - destruct (py_max_cases 0 x1) as [[Hx1 ->] | [Hx1 ->]];
      destruct (py_max_cases 0 x2) as [[Hx2 ->] | [Hx2 ->]];
      repeat split; intros; lra.
Qed.

Lemma tax_of_nonneg df : forall rem prev,
  rates_ge 0 df -> 0 <= tax_of df rem prev.
Proof.
  induction df as [| b df IH]; intros rem prev Hr; [simpl; lra |].
  inversion Hr as [| ? ? Hb Hrest]; subst.
  rewrite tax_of_step.
  pose proof (slab_amount_nonneg (Upper_Limit b) rem prev) as Hn.
  pose proof (IH (rem - slab_amount (Upper_Limit b) rem prev)
                 (match Upper_Limit b with Some c => c | None => prev end) Hrest).
  nra.
Qed.

(** With rates that are not negative, more income never means less tax. *)
Lemma tax_of_mono df : forall prev x1 x2,
  rates_ge 0 df -> 0 <= x1 -> x1 <= x2 ->
  tax_of df x1 prev <= tax_of df x2 prev.
Proof.
  induction df as [| b df IH]; intros prev x1 x2 Hr H1 H12; [simpl; lra |].
  inversion Hr as [| ? ? Hb Hrest]; subst.
  rewrite !tax_of_step.
  destruct (slab_amount_pair (Upper_Limit b) prev x1 x2 H1 H12)
    as (Ha1 & Ha12 & Hy1 & Hy12 & _ & _).
  pose proof (IH (match Upper_Limit b with Some c => c | None => prev end)
                 _ _ Hrest Hy1 Hy12).
  nra.
Qed.

(** Past an amount [y1], each further unit of income is taxed at least at
    the lowest rate of the table, provided the table has an open-ended
    row. *)
Lemma tax_of_slope rho df : forall prev y1 y2,
  has_open df -> rates_ge rho df -> 0 <= y1 -> y1 <= y2 ->
  rho * (y2 - y1) <= tax_of df y2 prev - tax_of df y1 prev.
Proof.
  induction df as [| b df IH]; intros prev y1 y2 Ho Hr H1 H12; [inversion Ho |].
  inversion Hr as [| ? ? Hb Hrest]; subst.
  rewrite !tax_of_step.
  destruct (slab_amount_pair (Upper_Limit b) prev y1 y2 H1 H12)
    as (Ha1 & Ha12 & Hz1 & Hz12 & _ & Hnone).
  set (a1 := slab_amount (Upper_Limit b) y1 prev) in *.
  set (a2 := slab_amount (Upper_Limit b) y2 prev) in *.
  set (prev' := match Upper_Limit b with Some c => c | None => prev end).
  destruct (Qlt_le_dec 0 (y2 - a2)) as [Hpos | Hzero].
  - assert (Ho' : has_open df).
    { inversion Ho as [? ? Hc | ? ? Hc]; subst; [| exact Hc].
      specialize (Hnone Hc). lra. }
    pose proof (IH prev' _ _ Ho' Hrest Hz1 Hz12). nra.
  - rewrite (tax_of_nonpos df (y2 - a2) prev' Hzero).
    rewrite (tax_of_nonpos df (y1 - a1) prev' ltac:(lra)).
    assert (E1 : a1 == y1) by lra. assert (E2 : a2 == y2) by lra.
    rewrite E1, E2.
    assert (Hw : 0 <= (y2 - y1) * (rate_of b - rho))
      by (apply Qmult_le_0_compat; lra).
    lra.
Qed.

(** With rates that never decrease and an open-ended row, the average rate
    never decreases: in cross-multiplied form. *)
Lemma tax_of_star df : forall prev x1 x2,
  has_open df -> RatesAsc df -> 0 < x1 -> x1 <= x2 ->
  tax_of df x1 prev * x2 <= tax_of df x2 prev * x1.
Proof.
  induction df as [| b df IH]; intros prev x1 x2 Ho Hr H1 H12; [inversion Ho |].
  destruct Hr as [Hge Hasc].
  rewrite !tax_of_step.
  destruct (slab_amount_pair (Upper_Limit b) prev x1 x2 ltac:(lra) H12)
    as (Ha1 & Ha12 & Hz1 & Hz12 & Hsat & Hnone).
  set (a1 := slab_amount (Upper_Limit b) x1 prev) in *.
  set (a2 := slab_amount (Upper_Limit b) x2 prev) in *.
  set (prev' := match Upper_Limit b with Some c => c | None => prev end).
  set (r := rate_of b) in *.
  destruct (Qlt_le_dec 0 (x2 - a2)) as [Hpos | Hzero].
  - assert (Ho' : has_open df).
    { inversion Ho as [? ? Hc | ? ? Hc]; subst; [| exact Hc].
      specialize (Hnone Hc). lra. }
    pose proof (tax_of_slope r df prev' _ _ Ho' Hge Hz1 Hz12) as Hslope.
    destruct (Qlt_le_dec 0 (x1 - a1)) as [Hpos1 | Hzero1].
    + specialize (Hsat Hpos1).
      pose proof (IH prev' _ _ Ho' Hasc Hpos1 Hz12) as Hstar.
      set (g1 := tax_of df (x1 - a1) prev') in *.
      set (g2 := tax_of df (x2 - a2) prev') in *.
      assert (Hw : 0 <= a1 * (g2 - g1 - r * ((x2 - a2) - (x1 - a1)))) by nra.
      nra.
    + rewrite (tax_of_nonpos df (x1 - a1) prev' Hzero1).
      pose proof (tax_of_nonpos df (x1 - a1) prev' Hzero1) as Hg1.
      set (g2 := tax_of df (x2 - a2) prev') in *.
      assert (Ex : a1 == x1) by lra.
      assert (Hz : x1 - a1 == 0) by lra.
      rewrite Hg1, Hz in Hslope.
      assert (Hw : 0 <= x1 * (g2 - r * (x2 - a2)))
        by (apply Qmult_le_0_compat; lra).
      rewrite Ex. lra.
  - rewrite (tax_of_nonpos df (x2 - a2) prev' Hzero).
    rewrite (tax_of_nonpos df (x1 - a1) prev' ltac:(lra)).
    assert (Ex1 : a1 == x1) by lra. assert (Ex2 : a2 == x2) by lra.
    rewrite Ex1, Ex2. lra.
Qed.

(** ** What sanitizing does to a valid schedule *)

Lemma sanitize_row_rate_nonneg b : 0 <= rate_of b -> 0 <= rate_of (sanitize_row b).
Proof.
  unfold rate_of, sanitize_row. simpl.
  destruct (Rate b) as [x |]; simpl; [| lra].
  intros Hx. case_lt 1 x.
  - simpl. apply Qle_shift_div_l; lra.
  - destruct (Qeq_bool x 0); simpl; lra.
Qed.

Lemma sanitize_row_rate_small b : rate_of b <= 1 -> rate_of (sanitize_row b) == rate_of b.
Proof.
  unfold rate_of, sanitize_row. simpl.
  destruct (Rate b) as [x |]; simpl; [| lra].
  intros Hx. case_lt 1 x; [lra |].
  destruct (Qeq_bool x 0) eqn:Ez; simpl; [| lra].
  apply Qeq_bool_iff in Ez. lra.
Qed.

(** The rate of the synthesized terminal row is the rate of the last row. *)
Lemma last_rate_Forall (P : Q -> Prop) l :
  P 0 -> Forall (fun b => P (rate_of b)) l ->
  P (rate_of (mkBracket None (last (map Rate l) (Some 0)))).
Proof.
  intros H0. induction 1 as [| x l Hx Hl IH]; [exact H0 |].
  destruct l as [| y l]; [exact Hx | exact IH].
Qed.

Lemma sanitize_rates_nonneg df : rates_ge 0 df -> rates_ge 0 (sanitize_brackets df).
Proof.
  intros H. destruct df as [| b df].
  - constructor; [unfold rate_of; simpl; lra | constructor].
  - rewrite sanitize_brackets_cons. cbv zeta.
    assert (Hout : rates_ge 0 (sort_brackets (map sanitize_row (b :: df)))).
    { apply Forall_sort_brackets. apply Forall_map.
      eapply Forall_impl; [| exact H]. intros x. apply sanitize_row_rate_nonneg. }
    destruct (Nat.eqb _ 0); [| exact Hout].
    apply Forall_app. split; [exact Hout |].
    constructor; [| constructor].
    apply (last_rate_Forall (fun q => 0 <= q)); [lra | exact Hout].
Qed.

Lemma rates_in_unit_Forall df :
  rates_in_unit df = true -> Forall (fun b => 0 <= rate_of b /\ rate_of b <= 1) df.
Proof.
  unfold rates_in_unit. rewrite forallb_forall. intros H.
  apply Forall_forall. intros b Hin. specialize (H b Hin).
  apply andb_true_iff in H. destruct H as [H0 H1].
  split; apply Qle_bool_iff; assumption.
Qed.

Lemma rates_ge_weaken q q' l : q' <= q -> rates_ge q l -> rates_ge q' l.
Proof.
  intros Hq. apply Forall_impl. intros b Hb. lra.
Qed.

Lemma rates_ascending_RatesAsc df : rates_ascending df = true -> RatesAsc df.
Proof.
  induction df as [| a df IH]; intros H; [exact I |].
  destruct df as [| b df]; [split; [constructor | exact I] |].
  simpl in H. apply andb_true_iff in H. destruct H as [Hab Hrest].
  apply Qle_bool_iff in Hab. specialize (IH Hrest).
  split; [| exact IH].
  constructor; [exact Hab |].
  destruct IH as [Hge _]. apply rates_ge_weaken with (q := rate_of b); assumption.
Qed.

Lemma RatesAsc_map_sanitize df :
  Forall (fun b => 0 <= rate_of b /\ rate_of b <= 1) df ->
  RatesAsc df -> RatesAsc (map sanitize_row df).
Proof.
  induction 1 as [| a df Ha Hdf IH]; intros Hasc; [exact I |].
  destruct Hasc as [Hge Hasc]. simpl. split; [| apply IH, Hasc].
  apply Forall_map. unfold rates_ge in Hge.
  rewrite Forall_forall in *. intros b Hin.
  pose proof (sanitize_row_rate_small a ltac:(tauto)).
  pose proof (sanitize_row_rate_small b ltac:(apply Hdf, Hin)).
  specialize (Hge b Hin). lra.
Qed.

Lemma RatesAsc_app n l :
  RatesAsc l -> Forall (fun b => rate_of b <= rate_of n) l -> RatesAsc (l ++ [n]).
Proof.
  induction l as [| a l IH]; intros Hasc Hle; [split; [constructor | exact I] |].
  destruct Hasc as [Hge Hasc]. inversion Hle as [| ? ? Ha Hl]; subst.
  simpl. split; [| apply IH; assumption].
  apply Forall_app. split; [exact Hge | constructor; [exact Ha | constructor]].
Qed.

Lemma RatesAsc_last_max l :
  RatesAsc l ->
  Forall (fun b => rate_of b <= rate_of (mkBracket None (last (map Rate l) (Some 0)))) l.
Proof.
  induction l as [| a l IH]; intros Hasc; [constructor |].
  destruct Hasc as [Hge Hasc].
  destruct l as [| b l]; [constructor; [unfold rate_of; simpl; lra | constructor] |].
  specialize (IH Hasc).
  change (last (map Rate (a :: b :: l)) (Some 0)) with (last (map Rate (b :: l)) (Some 0)).
  constructor; [| exact IH].
  inversion Hge as [| ? ? Hab _]; subst. inversion IH as [| ? ? Hb _]; subst. lra.
Qed.

Lemma caps_ascending_map df :
  caps_ascending (map sanitize_row df) = caps_ascending df.
Proof.
  induction df as [| a df IH]; [reflexivity |].
  destruct df as [| b df]; [reflexivity |].
  simpl in *. rewrite IH. reflexivity.
Qed.

(** On a valid schedule with ascending rates, the sanitized table still
    has ascending rates. *)
Lemma sanitize_RatesAsc df :
  valid_schedule df = true -> rates_ascending df = true ->
  RatesAsc (sanitize_brackets df).
Proof.
  intros Hv Hr. apply andb_true_iff in Hv. destruct Hv as [Hu Hc].
  destruct df as [| b df]; [split; [constructor | exact I] |].
  rewrite sanitize_brackets_cons. cbv zeta.
  rewrite sort_brackets_sorted by (rewrite caps_ascending_map; exact Hc).
  assert (Hasc : RatesAsc (map sanitize_row (b :: df))).
  { apply RatesAsc_map_sanitize;
      [apply rates_in_unit_Forall, Hu | apply rates_ascending_RatesAsc, Hr]. }
  destruct (Nat.eqb _ 0); [| exact Hasc].
  apply RatesAsc_app; [exact Hasc | apply RatesAsc_last_max, Hasc].
Qed.

Lemma valid_rates_nonneg df : valid_schedule df = true -> rates_ge 0 df.
Proof.
  intros Hv. apply andb_true_iff in Hv. destruct Hv as [Hu _].
  eapply Forall_impl; [| apply rates_in_unit_Forall, Hu]. simpl. tauto.
Qed.

Lemma apply_progressive_tax_of df a :
  0 < a -> fst (apply_progressive df a) == tax_of (sanitize_brackets df) a 0.
Proof.
  intros Ha. unfold apply_progressive. case_le a 0; [lra |].
  rewrite slab_loop_tax. lra.
Qed.

Lemma Qdiv_le_cross t1 t2 a1 a2 :
  0 < a1 -> 0 < a2 -> t1 * a2 <= t2 * a1 -> t1 / a1 <= t2 / a2.
Proof.
  intros H1 H2 H. apply Qle_shift_div_r; [exact H1 |].
  assert (E : t2 / a2 * a1 == t2 * a1 / a2) by (field; lra).
  rewrite E. apply Qle_shift_div_l; assumption.
Qed.

(** C1, as stated, fails: validity does not ask the rates to ascend, and
    with a lower rate in the higher bracket the average rate drops. *)
Lemma average_rate_can_drop :
  let S := [mkBracket (Some 100) (Some (5 # 10)); mkBracket None (Some (1 # 10))] in
  valid_schedule S = true /\
  fst (apply_progressive S 200) / 200 < fst (apply_progressive S 50) / 50 /\
  ~ (forall S a1 a2, valid_schedule S = true -> 0 < a1 -> a1 <= a2 ->
       fst (apply_progressive S a1) / a1 <= fst (apply_progressive S a2) / a2).
Proof.
  cbv zeta. split; [reflexivity |]. split; [reflexivity |].
  intros H.
  specialize (H [mkBracket (Some 100) (Some (5 # 10)); mkBracket None (Some (1 # 10))]
                50 200 ltac:(reflexivity) ltac:(reflexivity) ltac:(discriminate)).
  vm_compute in H. apply H. reflexivity.
Qed.

(** * Further properties of [sanitize_brackets] *)

Lemma insert_bracket_perm x l : Permutation (insert_bracket x l) (x :: l).
Proof.
  induction l as [| y l IH]; simpl; [apply Permutation_refl |].
  destruct (cap_le (Upper_Limit x) (Upper_Limit y)); [apply Permutation_refl |].
  apply perm_trans with (y :: x :: l); [apply perm_skip, IH | apply perm_swap].
Qed.

Lemma sort_brackets_perm l : Permutation (sort_brackets l) l.
Proof.
  induction l as [| x l IH]; simpl; [apply perm_nil |].
  apply perm_trans with (x :: sort_brackets l);
    [apply insert_bracket_perm | apply perm_skip, IH].
Qed.

(** X1.  [sanitize_brackets] never drops or duplicates a row: on a table
    that is not empty the result is a rearrangement of the input rows with
    the rate convention applied, followed by one synthesized open-ended row
    exactly when no input cap is missing. *)
Theorem sanitize_keeps_rows (df : list Bracket) :
  df <> [] ->
  exists t,
    Permutation (sanitize_brackets df)
      (map sanitize_row df ++
       (if Nat.eqb (count_na df) 0 then [mkBracket None t] else [])) /\
    List.length (sanitize_brackets df) =
      (List.length df + (if Nat.eqb (count_na df) 0 then 1 else 0))%nat.
Proof.
  intros Hne. destruct df as [| b df]; [congruence |].
  rewrite sanitize_brackets_cons. cbv zeta.
  set (out := sort_brackets (map sanitize_row (b :: df))).
  assert (Hc : count_na out = count_na (b :: df)).
  { unfold out. rewrite count_na_sort. apply count_na_map. }
  assert (Hp : Permutation out (map sanitize_row (b :: df)))
    by apply sort_brackets_perm.
  assert (Hl : List.length out = List.length (b :: df)).
  { rewrite (Permutation_length Hp). apply length_map. }
  rewrite Hc. exists (last (map Rate out) (Some 0)).
  destruct (Nat.eqb (count_na (b :: df)) 0).
  - split; [apply Permutation_app_tail, Hp | rewrite length_app, Hl; reflexivity].
  - rewrite app_nil_r. split; [exact Hp | rewrite Hl; lia].
Qed.

Lemma sanitize_keeps_rows_witness :
  exists t,
    Permutation
      (sanitize_brackets [mkBracket (Some 300) (Some 20); mkBracket (Some 100) (Some 10)])
      (map sanitize_row [mkBracket (Some 300) (Some 20); mkBracket (Some 100) (Some 10)]
       ++ [mkBracket None t]) /\
    List.length
      (sanitize_brackets [mkBracket (Some 300) (Some 20); mkBracket (Some 100) (Some 10)])
    = 3%nat.
Proof.
  apply (sanitize_keeps_rows
           [mkBracket (Some 300) (Some 20); mkBracket (Some 100) (Some 10)]).
  discriminate.
Defined.

Lemma cap_le_refl a : cap_le a a = true.
Proof. destruct a as [x |]; simpl; [apply Qle_bool_iff; lra | reflexivity]. Qed.

Lemma cap_le_trans a b c : cap_le a b = true -> cap_le b c = true -> cap_le a c = true.
Proof.
  destruct a as [x |], b as [y |], c as [z |]; simpl; try congruence.
  rewrite !Qle_bool_iff. lra.
Qed.

(** In a sorted table the first row has the least cap and the last row the
    greatest. *)
Lemma sorted_head_min y l :
  caps_ascending (y :: l) = true ->
  forall b, In b (y :: l) -> cap_le (Upper_Limit y) (Upper_Limit b) = true.
Proof.
  revert y. induction l as [| z l IH]; intros y Hs b Hin.
  - destruct Hin as [<- | []]. apply cap_le_refl.
  - apply caps_ascending_cons in Hs. destruct Hs as [Hh Hs]. simpl in Hh.
    destruct Hin as [<- | Hin]; [apply cap_le_refl |].
    eapply cap_le_trans; [exact Hh | apply IH; assumption].
Qed.

Lemma last_in_list (l : list Bracket) d : l <> [] -> In (last l d) l.
Proof.
  induction l as [| y l IH]; intros Hne; [congruence |].
  destruct l as [| z l]; [left; reflexivity |].
  right. apply IH. discriminate.
Qed.

Lemma sorted_last_max l d :
  caps_ascending l = true ->
  forall b, In b l -> cap_le (Upper_Limit b) (Upper_Limit (last l d)) = true.
Proof.
  induction l as [| y l IH]; intros Hs b Hin; [destruct Hin |].
  destruct l as [| z l].
  - destruct Hin as [<- | []]. apply cap_le_refl.
  - change (last (y :: z :: l) d) with (last (z :: l) d).
    pose proof Hs as Hs'. apply caps_ascending_cons in Hs'. destruct Hs' as [_ Hs'].
    destruct Hin as [<- | Hin]; [| apply IH; assumption].
    apply (sorted_head_min _ _ Hs). right. apply last_in_list. discriminate.
Qed.

Lemma last_map_Rate l d : l <> [] -> last (map Rate l) d = Rate (last l (mkBracket None d)).
Proof.
  induction l as [| y l IH]; intros Hne; [congruence |].
  destruct l as [| z l]; [reflexivity |].
  change (last (map Rate (z :: l)) d = Rate (last (z :: l) (mkBracket None d))).
  apply IH. discriminate.
Qed.

(** X2.  When no cap of a non-empty table is missing, the synthesized
    terminal row is the last row of the result, it is open-ended, and its
    rate is the sanitized rate of an input row whose cap is the greatest of
    the table. *)
Theorem sanitize_terminal_rate (df : list Bracket) :
  df <> [] -> count_na df = 0%nat ->
  exists m,
    In m df /\
    (forall b, In b df -> cap_le (Upper_Limit b) (Upper_Limit m) = true) /\
    sanitize_brackets df =
      sort_brackets (map sanitize_row df) ++ [mkBracket None (sanitize_rate (Rate m))].
Proof.
  intros Hne Hc. destruct df as [| b0 df]; [congruence |].
  rewrite sanitize_brackets_cons. cbv zeta.
  set (out := sort_brackets (map sanitize_row (b0 :: df))).
  assert (Hc' : count_na out = 0%nat).
  { unfold out. rewrite count_na_sort, count_na_map. exact Hc. }
  rewrite Hc'. simpl Nat.eqb. cbv iota.
  assert (Hp : Permutation out (map sanitize_row (b0 :: df)))
    by apply sort_brackets_perm.
  assert (Hout : out <> []).
  { intros E. rewrite E in Hp. apply Permutation_nil in Hp. discriminate. }
  pose proof (last_in_list out (mkBracket None (Some 0)) Hout) as Hin.
  pose proof (Permutation_in _ Hp Hin) as Hin'.
  apply in_map_iff in Hin'. destruct Hin' as (m & Hm & Hmin).
  exists m. split; [exact Hmin | split].
  - intros b Hb.
    assert (Hsb : In (sanitize_row b) out).
    { apply (Permutation_in _ (Permutation_sym Hp)). apply in_map, Hb. }
    pose proof (sorted_last_max out (mkBracket None (Some 0))
                  (caps_ascending_sort _) _ Hsb) as Hle.
    rewrite <- Hm in Hle. exact Hle.
  - rewrite (last_map_Rate out (Some 0) Hout), <- Hm. reflexivity.
Qed.

Lemma sanitize_terminal_rate_witness :
  exists m,
    In m [mkBracket (Some 300) (Some 20); mkBracket (Some 100) (Some 10)] /\
    (forall b, In b [mkBracket (Some 300) (Some 20); mkBracket (Some 100) (Some 10)] ->
               cap_le (Upper_Limit b) (Upper_Limit m) = true) /\
    sanitize_brackets [mkBracket (Some 300) (Some 20); mkBracket (Some 100) (Some 10)] =
      sort_brackets
        (map sanitize_row [mkBracket (Some 300) (Some 20); mkBracket (Some 100) (Some 10)])
      ++ [mkBracket None (sanitize_rate (Rate m))].
Proof.
  apply (sanitize_terminal_rate
           [mkBracket (Some 300) (Some 20); mkBracket (Some 100) (Some 10)]);
    [discriminate | reflexivity].
Defined.

Lemma same_cap_sym a b : same_cap a b = same_cap b a.
Proof. unfold same_cap. apply andb_comm. Qed.

Lemma distinct_caps_inj l : distinct_caps l = true -> caps_inj l.
Proof.
  induction l as [| x l IH]; intros Hd a b Ha Hb Hs; [destruct Ha |].
  simpl in Hd. apply andb_true_iff in Hd. destruct Hd as [Hx Hd].
  rewrite forallb_forall in Hx.
  destruct Ha as [<- | Ha], Hb as [<- | Hb].
  - reflexivity.
  - specialize (Hx b Hb). rewrite Hs in Hx. discriminate.
  - specialize (Hx a Ha). rewrite same_cap_sym, Hs in Hx. discriminate.
  - apply (IH Hd); assumption.
Qed.

Lemma caps_inj_map l : caps_inj l -> caps_inj (map sanitize_row l).
Proof.
  intros H a b Ha Hb Hs.
  apply in_map_iff in Ha. destruct Ha as (a0 & <- & Ha).
  apply in_map_iff in Hb. destruct Hb as (b0 & <- & Hb).
  f_equal. apply H; assumption.
Qed.

Lemma caps_inj_perm l l' : Permutation l l' -> caps_inj l -> caps_inj l'.
Proof.
  intros Hp H a b Ha Hb.
  apply H; apply (Permutation_in _ (Permutation_sym Hp)); assumption.
Qed.

(** Two sorted tables with the same rows, no two of which share a cap, are
    the same table. *)
Lemma sorted_perm_unique l1 : forall l2,
  caps_ascending l1 = true -> caps_ascending l2 = true ->
  Permutation l1 l2 -> caps_inj l1 -> l1 = l2.
Proof.
  induction l1 as [| x l1 IH]; intros l2 Hs1 Hs2 Hp Hinj.
  - apply Permutation_nil in Hp. congruence.
  - destruct l2 as [| y l2];
      [apply Permutation_sym, Permutation_nil in Hp; discriminate |].
    assert (Hxy : x = y).
    { apply Hinj.
      - left. reflexivity.
      - apply (Permutation_in _ (Permutation_sym Hp)). left. reflexivity.
      - unfold same_cap. apply andb_true_iff. split.
        + apply (sorted_head_min _ _ Hs1).
          apply (Permutation_in _ (Permutation_sym Hp)). left. reflexivity.
        + apply (sorted_head_min _ _ Hs2).
          apply (Permutation_in _ Hp). left. reflexivity. }
    subst y. f_equal.
    apply caps_ascending_cons in Hs1. apply caps_ascending_cons in Hs2.
    apply IH; [tauto | tauto | eapply Permutation_cons_inv; exact Hp |].
    intros a b Ha Hb. apply Hinj; right; assumption.
Qed.

Lemma count_na_perm l l' : Permutation l l' -> count_na l = count_na l'.
Proof.
  induction 1 as [| x l l' Hp IH | x y l | l l' l'' _ IH1 _ IH2].
  - reflexivity.
  - rewrite !count_na_cons, IH. reflexivity.
  - rewrite !count_na_cons. lia.
  - congruence.
Qed.

Lemma sanitize_perm_eq df1 df2 :
  Permutation df1 df2 -> distinct_caps df1 = true ->
  sanitize_brackets df1 = sanitize_brackets df2.
Proof.
  intros Hp Hd.
  assert (Hsort : sort_brackets (map sanitize_row df1) = sort_brackets (map sanitize_row df2)).
  { apply sorted_perm_unique; try apply caps_ascending_sort.
    - apply perm_trans with (map sanitize_row df1); [apply sort_brackets_perm |].
      apply perm_trans with (map sanitize_row df2);
        [apply Permutation_map, Hp | apply Permutation_sym, sort_brackets_perm].
    - apply (caps_inj_perm (map sanitize_row df1));
        [apply Permutation_sym, sort_brackets_perm |].
      apply caps_inj_map, distinct_caps_inj, Hd. }
  destruct df1 as [| b1 df1].
  - apply Permutation_nil in Hp. subst. reflexivity.
  - destruct df2 as [| b2 df2];
      [apply Permutation_sym, Permutation_nil in Hp; discriminate |].
    rewrite !sanitize_brackets_cons. cbv zeta. rewrite Hsort. reflexivity.
Qed.

(** X3.  The order in which the rows of a table are entered does not
    matter when no two rows share a cap: two such tables with the same rows
    are sanitized to the same table and give the same tax and the same
    breakdown for every amount. *)
Theorem row_order_irrelevant (df1 df2 : list Bracket) (a : Q) :
  Permutation df1 df2 -> distinct_caps df1 = true ->
  sanitize_brackets df1 = sanitize_brackets df2 /\
  apply_progressive df1 a = apply_progressive df2 a.
Proof.
  intros Hp Hd. pose proof (sanitize_perm_eq df1 df2 Hp Hd) as E.
  split; [exact E |]. unfold apply_progressive. rewrite E. reflexivity.
Qed.

Lemma row_order_irrelevant_witness :
  let df1 := [mkBracket None (Some 30); mkBracket (Some 300) (Some 20);
              mkBracket (Some 100) (Some 10)] in
  let df2 := [mkBracket (Some 100) (Some 10); mkBracket None (Some 30);
              mkBracket (Some 300) (Some 20)] in
  sanitize_brackets df1 = sanitize_brackets df2 /\
  apply_progressive df1 500 = apply_progressive df2 500.
Proof.
  cbv zeta. apply row_order_irrelevant; [| reflexivity].
  apply perm_trans with
    [mkBracket (Some 100) (Some 10); mkBracket None (Some 30); mkBracket (Some 300) (Some 20)];
    [| apply Permutation_refl].
  apply perm_trans with
    [mkBracket None (Some 30); mkBracket (Some 100) (Some 10); mkBracket (Some 300) (Some 20)];
    [apply perm_skip, perm_swap | apply perm_swap].
Defined.

Lemma rates_0_100_Forall df :
  rates_0_100 df = true -> rates_between 0 100 df.
Proof.
  unfold rates_0_100, rates_between. rewrite forallb_forall. intros H.
  apply Forall_forall. intros b Hin. specialize (H b Hin).
  apply andb_true_iff in H. destruct H as [H0 H1].
  split; apply Qle_bool_iff; assumption.
Qed.

Lemma sanitize_row_rate_unit b :
  0 <= rate_of b /\ rate_of b <= 100 ->
  0 <= rate_of (sanitize_row b) /\ rate_of (sanitize_row b) <= 1.
Proof.
  intros [H0 H1]. split; [apply sanitize_row_rate_nonneg, H0 |].
  unfold rate_of, sanitize_row in *. simpl.
  destruct (Rate b) as [x |]; simpl in *; [| lra].
  case_lt 1 x.
  - simpl. apply Qle_shift_div_r; lra.
  - destruct (Qeq_bool x 0); simpl; lra.
Qed.

Lemma sanitize_rates_between df :
  rates_between 0 100 df -> rates_between 0 1 (sanitize_brackets df).
Proof.
  intros H. destruct df as [| b df].
  - constructor; [unfold rate_of; simpl; lra | constructor].
  - rewrite sanitize_brackets_cons. cbv zeta.
    assert (Hout : rates_between 0 1 (sort_brackets (map sanitize_row (b :: df)))).
    { apply Forall_sort_brackets. apply Forall_map.
      eapply Forall_impl; [| exact H]. intros x. apply sanitize_row_rate_unit. }
    destruct (Nat.eqb _ 0); [| exact Hout].
    apply Forall_app. split; [exact Hout |].
    constructor; [| constructor].
    apply (last_rate_Forall (fun q => 0 <= q /\ q <= 1)); [lra | exact Hout].
Qed.

(** X4.  Rates are decimals after sanitizing: when every rate of the raw
    table lies between 0 and 100 (a missing rate counts as 0), every rate
    of the sanitized table, the synthesized terminal row included, lies
    between 0 and 1. *)
Theorem sanitize_rates_decimal (df : list Bracket) :
  rates_0_100 df = true -> rates_in_unit (sanitize_brackets df) = true.
Proof.
  intros H. apply rates_0_100_Forall, sanitize_rates_between in H.
  unfold rates_in_unit. apply forallb_forall. intros b Hb.
  unfold rates_between in H. rewrite Forall_forall in H.
  destruct (H b Hb) as [H0 H1].
  apply andb_true_iff. split; apply Qle_bool_iff; assumption.
Qed.

Lemma sanitize_rates_decimal_witness :
  rates_in_unit
    (sanitize_brackets [mkBracket (Some 300) (Some 20); mkBracket (Some 100) None;
                        mkBracket (Some 200) (Some (1 # 2))]) = true.
Proof.
  apply (sanitize_rates_decimal
           [mkBracket (Some 300) (Some 20); mkBracket (Some 100) None;
            mkBracket (Some 200) (Some (1 # 2))]).
  reflexivity.
Defined.

(** * Further properties of [apply_progressive] *)

Lemma slab_loop_rows df : forall rem prev tax rows,
  snd (slab_loop df rem prev tax rows) = rows ++ rows_of df rem prev.
Proof.
  induction df as [| b df IH]; intros rem prev tax rows; simpl;
    [symmetry; apply app_nil_r |].
  destruct (Qle_bool (rem - slab_amount (Upper_Limit b) rem prev) 0); simpl.
  - destruct (Qlt_bool 0 (slab_amount (Upper_Limit b) rem prev));
      rewrite ?app_nil_r; reflexivity.
  - rewrite IH.
    destruct (Qlt_bool 0 (slab_amount (Upper_Limit b) rem prev)); simpl;
      [rewrite <- app_assoc |]; reflexivity.
Qed.

Lemma apply_progressive_rows_of df a :
  0 < a -> snd (apply_progressive df a) = rows_of (sanitize_brackets df) a 0.
Proof.
  intros Ha. unfold apply_progressive. case_le a 0; [lra |].
  apply slab_loop_rows.
Qed.

Lemma rows_of_ok df : forall rem prev, Forall row_ok (rows_of df rem prev).
Proof.
  induction df as [| b df IH]; intros rem prev; simpl; [constructor |].
  apply Forall_app. split.
  - case_lt 0 (slab_amount (Upper_Limit b) rem prev); [| constructor].
    constructor; [| constructor].
    unfold row_ok. simpl. split; [exact E | split; [reflexivity |]].
    destruct (Upper_Limit b) as [c |] eqn:Hc; [| exact I].
    pose proof (slab_amount_le_width c rem prev) as Hw.
    destruct (py_max_cases 0 (c - prev)) as [[H Em] | [H Em]]; rewrite Em in Hw; lra.
  - destruct (Qle_bool _ 0); [constructor | apply IH].
Qed.

(** X5.  Every row of the breakdown is well formed: its amount is strictly
    positive, its tax is its amount times its rate, and a capped row never
    holds more than the width of its slab ([To - From]). *)
Theorem breakdown_rows_well_formed (df : list Bracket) (a : Q) :
  Forall row_ok (snd (apply_progressive df a)).
Proof.
  unfold apply_progressive. destruct (Qle_bool a 0); simpl; [constructor |].
  rewrite slab_loop_rows. apply rows_of_ok.
Qed.

Lemma Forall_removelast {A} (P : A -> Prop) l : Forall P l -> Forall P (removelast l).
Proof.
  induction 1 as [| x l Hx Hl IH]; simpl; [constructor |].
  destruct l; [constructor | constructor; assumption].
Qed.

Lemma rows_of_open_last df : forall rem prev,
  0 < rem -> Forall (fun r => To r <> None) (removelast (rows_of df rem prev)).
Proof.
  induction df as [| b df IH]; intros rem prev Hrem; simpl; [constructor |].
  set (amt := slab_amount (Upper_Limit b) rem prev).
  destruct (Upper_Limit b) as [c |] eqn:Hc.
  - case_le (rem - amt) 0.
    + rewrite app_nil_r. apply Forall_removelast.
      destruct (Qlt_bool 0 amt); repeat constructor. simpl. discriminate.
    + destruct (Qlt_bool 0 amt); simpl app; [| apply IH, E].
      specialize (IH (rem - amt) c E).
      destruct (rows_of df (rem - amt) c) eqn:Er; [constructor |].
      constructor; [simpl; discriminate | exact IH].
  - pose proof (slab_amount_open rem prev ltac:(lra)) as Ho. fold amt in Ho.
    case_le (rem - amt) 0; [| lra].
    rewrite app_nil_r. destruct (Qlt_bool 0 amt); constructor.
Qed.

(** X6.  An open-ended row can only be the last row of the breakdown:
    every row before the last one is a capped slab. *)
Theorem breakdown_open_row_last (df : list Bracket) (a : Q) :
  Forall (fun r => To r <> None) (removelast (snd (apply_progressive df a))).
Proof.
  unfold apply_progressive. case_le a 0; simpl; [constructor |].
  rewrite slab_loop_rows. apply rows_of_open_last, E.
Qed.

Lemma tiled_Qeq s s' rows : s == s' -> tiled s rows -> tiled s' rows.
Proof.
  revert s s'. induction rows as [| r rows IH]; intros s s' E H; [exact I |].
  destruct H as (Hf & Hfull & Ht). simpl. split; [lra | split].
  - intros Hne. destruct (Hfull Hne) as (c & Hc & Ec). exists c. split; [exact Hc | lra].
  - apply (IH (s + Amount r)); [lra | exact Ht].
Qed.

Lemma head_ge_next b df c :
  caps_ascending (b :: df) = true -> Upper_Limit b = Some c -> head_ge c df.
Proof.
  intros Hs Hc. apply caps_ascending_cons in Hs. destruct Hs as [Hh _].
  destruct df as [| z df]; simpl in *; [exact I |].
  rewrite Hc in Hh. destruct (Upper_Limit z); [apply Qle_bool_iff, Hh | exact I].
Qed.

Lemma rows_of_tiled df : forall rem prev,
  caps_ascending df = true -> head_ge prev df -> 0 < rem ->
  tiled prev (rows_of df rem prev).
Proof.
  induction df as [| b df IH]; intros rem prev Hs Hh Hrem; simpl; [exact I |].
  set (amt := slab_amount (Upper_Limit b) rem prev).
  pose proof (slab_amount_nonneg (Upper_Limit b) rem prev) as Hn. fold amt in Hn.
  destruct (Upper_Limit b) as [c |] eqn:Hc.
  - simpl in Hh. rewrite Hc in Hh.
    case_le (rem - amt) 0.
    + rewrite app_nil_r. destruct (Qlt_bool 0 amt); simpl; [| exact I].
      split; [reflexivity | split; [congruence | exact I]].
    + assert (Eamt : amt == c - prev).
      { unfold amt, slab_amount in *.
        destruct (py_max_cases 0 (py_min rem (c - prev))) as [[H Em] | [H Em]];
          destruct (py_min_cases rem (c - prev)) as [[H' Em'] | [H' Em']];
          rewrite ?Em, ?Em' in *; lra. }
      pose proof (IH (rem - amt) c
                    (proj2 (proj1 (caps_ascending_cons b df) Hs))
                    (head_ge_next b df c Hs Hc) E) as Ht.
      case_lt 0 amt; simpl app.
      * split; [reflexivity | split].
        -- intros _. exists c. split; [reflexivity | simpl; lra].
        -- simpl. apply (tiled_Qeq c); [lra | exact Ht].
      * apply (tiled_Qeq c); [lra | exact Ht].
  - pose proof (slab_amount_open rem prev ltac:(lra)) as Ho. fold amt in Ho.
    case_le (rem - amt) 0; [| lra].
    rewrite app_nil_r. destruct (Qlt_bool 0 amt); simpl; [| exact I].
    split; [reflexivity | split; [congruence | exact I]].
Qed.

Lemma sanitize_head_ge df : caps_nonneg df = true -> head_ge 0 (sanitize_brackets df).
Proof.
  intros H. destruct df as [| b df]; [exact I |].
  rewrite sanitize_brackets_cons. cbv zeta.
  set (P := fun b : Bracket =>
              match Upper_Limit b with Some c => 0 <= c | None => True end).
  assert (Hout : Forall P (sort_brackets (map sanitize_row (b :: df)))).
  { apply Forall_sort_brackets, Forall_map.
    unfold caps_nonneg in H. rewrite forallb_forall in H.
    apply Forall_forall. intros x Hx. specialize (H x Hx). unfold P. simpl.
    destruct (Upper_Limit x); [apply Qle_bool_iff, H | exact I]. }
  assert (Hhead : forall l, Forall P l -> head_ge 0 l).
  { intros l Hl. destruct Hl as [| x l Hx _]; [exact I | exact Hx]. }
  destruct (Nat.eqb _ 0); [| apply Hhead, Hout].
  apply Hhead, Forall_app. split; [exact Hout | repeat constructor].
Qed.

(** X7.  When no cap of the raw table is negative, the breakdown tiles the
    income from 0 upwards: the first row starts at 0, each row starts where
    the one before it ends, and every row but the last is a capped slab
    filled exactly up to its cap. *)
Theorem breakdown_tiles_income (df : list Bracket) (a : Q) :
  caps_nonneg df = true -> tiled 0 (snd (apply_progressive df a)).
Proof.
  intros H. unfold apply_progressive. case_le a 0; simpl; [exact I |].
  rewrite slab_loop_rows. simpl.
  apply rows_of_tiled; [apply sanitize_caps_ascending | apply sanitize_head_ge, H | exact E].
Qed.

Lemma breakdown_tiles_income_witness :
  tiled 0 (snd (apply_progressive
                  [mkBracket (Some 47150) (Some 12); mkBracket (Some 11600) (Some 10);
                   mkBracket (Some 11600) (Some 15)] 80000)).
Proof.
  apply (breakdown_tiles_income
           [mkBracket (Some 47150) (Some 12); mkBracket (Some 11600) (Some 10);
            mkBracket (Some 11600) (Some 15)] 80000).
  reflexivity.
Defined.

(** Past an amount [y1], each further unit of income is taxed at most at
    the highest rate of the table. *)
Lemma tax_of_slope_upper hi df : forall prev y1 y2,
  0 <= hi -> Forall (fun b => rate_of b <= hi) df -> 0 <= y1 -> y1 <= y2 ->
  tax_of df y2 prev - tax_of df y1 prev <= hi * (y2 - y1).
Proof.
  induction df as [| b df IH]; intros prev y1 y2 Hhi Hr H1 H12.
  - simpl. assert (0 <= hi * (y2 - y1)) by (apply Qmult_le_0_compat; lra). lra.
  - inversion Hr as [| ? ? Hb Hrest]; subst.
    rewrite !tax_of_step.
    destruct (slab_amount_pair (Upper_Limit b) prev y1 y2 H1 H12)
      as (Ha1 & Ha12 & Hz1 & Hz12 & _ & _).
    set (a1 := slab_amount (Upper_Limit b) y1 prev) in *.
    set (a2 := slab_amount (Upper_Limit b) y2 prev) in *.
    pose proof (IH (match Upper_Limit b with Some c => c | None => prev end)
                   _ _ Hhi Hrest Hz1 Hz12) as Hrec.
    assert (Hw : 0 <= (a2 - a1) * (hi - rate_of b))
      by (apply Qmult_le_0_compat; lra).
    lra.
Qed.

Lemma tax_of_zero df prev : tax_of df 0 prev == 0.
Proof. apply tax_of_nonpos. lra. Qed.

Lemma apply_progressive_le0_tax df a : a <= 0 -> fst (apply_progressive df a) == 0.
Proof. intros H. rewrite (apply_progressive_le0 df a H). reflexivity. Qed.

Lemma tax_of_bounds lo hi sched a :
  has_open sched -> rates_between lo hi sched -> 0 <= hi -> 0 <= a ->
  lo * a <= tax_of sched a 0 /\ tax_of sched a 0 <= hi * a.
Proof.
  intros Ho Hr Hhi Ha.
  assert (Hlo : rates_ge lo sched)
    by (eapply Forall_impl; [| exact Hr]; simpl; tauto).
  assert (Hup : Forall (fun b => rate_of b <= hi) sched)
    by (eapply Forall_impl; [| exact Hr]; simpl; tauto).
  pose proof (tax_of_slope lo _ 0 0 a Ho Hlo ltac:(lra) Ha) as H1.
  pose proof (tax_of_slope_upper hi _ 0 0 a Hhi Hup ltac:(lra) Ha) as H2.
  pose proof (tax_of_zero sched 0) as Hz.
  split; lra.
Qed.

(** X8.  The tax lies between the lowest and the highest rate of the
    sanitized table applied to the whole amount: if every sanitized rate is
    between [lo] and [hi] (with [hi >= 0]), then for [a >= 0] the tax is
    between [lo * a] and [hi * a]. *)
Theorem tax_between_extreme_rates (lo hi : Q) (df : list Bracket) (a : Q) :
  rates_between lo hi (sanitize_brackets df) -> 0 <= hi -> 0 <= a ->
  lo * a <= fst (apply_progressive df a) /\
  fst (apply_progressive df a) <= hi * a.
Proof.
  intros Hr Hhi Ha.
  destruct (Qlt_le_dec 0 a) as [Hp | Hz].
  - rewrite apply_progressive_tax_of by exact Hp.
    apply tax_of_bounds; [apply sanitize_has_open | exact Hr | exact Hhi | exact Ha].
  - rewrite (apply_progressive_le0_tax df a Hz).
    assert (E : a == 0) by lra. rewrite E. split; lra.
Qed.

Lemma tax_between_extreme_rates_witness :
  (10 # 100) * 80000 <= fst (apply_progressive us_brackets_default 80000) /\
  fst (apply_progressive us_brackets_default 80000) <= (37 # 100) * 80000.
Proof.
  apply (tax_between_extreme_rates (10 # 100) (37 # 100) us_brackets_default 80000).
  - repeat constructor; vm_compute; discriminate.
  - discriminate.
  - discriminate.
Defined.

(** X9.  With raw rates between 0 and 100 the tax of a non-negative amount
    is never negative and never more than the amount: the net is between 0
    and the gross. *)
Theorem tax_within_amount (df : list Bracket) (a : Q) :
  rates_0_100 df = true -> 0 <= a ->
  0 <= fst (apply_progressive df a) /\ fst (apply_progressive df a) <= a.
Proof.
  intros Hr Ha.
  pose proof (sanitize_rates_between df (rates_0_100_Forall df Hr)) as Hb.
  destruct (Qlt_le_dec 0 a) as [Hp | Hz].
  - rewrite apply_progressive_tax_of by exact Hp.
    destruct (tax_of_bounds 0 1 _ a (sanitize_has_open df) Hb ltac:(lra) Ha).
    split; lra.
  - rewrite (apply_progressive_le0_tax df a Hz). split; lra.
Qed.

Lemma tax_within_amount_witness :
  0 <= fst (apply_progressive tw_default 2000000) /\
  fst (apply_progressive tw_default 2000000) <= 2000000.
Proof.
  apply (tax_within_amount tw_default 2000000); [reflexivity | discriminate].
Defined.

Lemma rates_nonneg_Forall df : rates_nonneg df = true -> rates_ge 0 df.
Proof.
  unfold rates_nonneg, rates_ge. rewrite forallb_forall. intros H.
  apply Forall_forall. intros b Hb. apply Qle_bool_iff, H, Hb.
Qed.

Lemma apply_progressive_mono df a1 a2 :
  rates_ge 0 df -> a1 <= a2 ->
  fst (apply_progressive df a1) <= fst (apply_progressive df a2).
Proof.
  intros Hr H12. pose proof (sanitize_rates_nonneg df Hr) as Hs.
  destruct (Qlt_le_dec 0 a1) as [Hp | Hz].
  - rewrite !apply_progressive_tax_of by lra.
    apply tax_of_mono; [exact Hs | lra | exact H12].
  - rewrite (apply_progressive_le0_tax df a1 Hz).
    destruct (Qlt_le_dec 0 a2) as [Hp2 | Hz2].
    + rewrite apply_progressive_tax_of by lra. apply tax_of_nonneg, Hs.
    + rewrite (apply_progressive_le0_tax df a2 Hz2). lra.
Qed.

(** X10.  For any table whose rates are not negative, in whatever order
    and with whatever caps, more income never means less tax, and the tax
    is never negative. *)
Theorem tax_monotone_any_table (df : list Bracket) (a1 a2 : Q) :
  rates_nonneg df = true -> a1 <= a2 ->
  0 <= fst (apply_progressive df a1) /\
  fst (apply_progressive df a1) <= fst (apply_progressive df a2).
Proof.
  intros Hr H12. apply rates_nonneg_Forall in Hr. split.
  - destruct (Qlt_le_dec 0 a1) as [Hp | Hz].
    + rewrite apply_progressive_tax_of by lra.
      apply tax_of_nonneg, sanitize_rates_nonneg, Hr.
    + rewrite (apply_progressive_le0_tax df a1 Hz). lra.
  - apply apply_progressive_mono; assumption.
Qed.

Lemma tax_monotone_any_table_witness :
  let df := [mkBracket (Some 300) (Some 250); mkBracket (Some 100) (Some 10)] in
  0 <= fst (apply_progressive df 150) /\
  fst (apply_progressive df 150) <= fst (apply_progressive df 400).
Proof.
  apply (tax_monotone_any_table
           [mkBracket (Some 300) (Some 250); mkBracket (Some 100) (Some 10)] 150 400);
    [reflexivity | discriminate].
Defined.

(** X11.  With raw rates between 0 and 100, more gross never means less
    net: the extra tax on a raise is at most the raise. *)
Theorem net_monotone (df : list Bracket) (a1 a2 : Q) :
  rates_0_100 df = true -> a1 <= a2 ->
  a1 - fst (apply_progressive df a1) <= a2 - fst (apply_progressive df a2).
Proof.
  intros Hr H12.
  pose proof (sanitize_rates_between df (rates_0_100_Forall df Hr)) as Hb.
  assert (Hup : Forall (fun b => rate_of b <= 1) (sanitize_brackets df))
    by (eapply Forall_impl; [| exact Hb]; simpl; tauto).
  destruct (Qlt_le_dec 0 a1) as [Hp | Hz].
  - rewrite !apply_progressive_tax_of by lra.
    pose proof (tax_of_slope_upper 1 _ 0 a1 a2 ltac:(lra) Hup ltac:(lra) H12). lra.
  - rewrite (apply_progressive_le0_tax df a1 Hz).
    destruct (Qlt_le_dec 0 a2) as [Hp2 | Hz2].
    + rewrite apply_progressive_tax_of by lra.
      destruct (tax_of_bounds 0 1 _ a2 (sanitize_has_open df) Hb ltac:(lra) ltac:(lra)).
      lra.
    + rewrite (apply_progressive_le0_tax df a2 Hz2). lra.
Qed.

Lemma net_monotone_witness :
  80000 - fst (apply_progressive us_brackets_default 80000)
  <= 90000 - fst (apply_progressive us_brackets_default 90000).
Proof.
  apply (net_monotone us_brackets_default 80000 90000); [reflexivity | discriminate].
Defined.

(** * The local layer *)

Lemma india_sur_rate_range ti : 0 <= india_sur_rate ti /\ india_sur_rate ti <= 25 # 100.
Proof.
  unfold india_sur_rate.
  destruct (Qlt_bool 20000000 ti), (Qlt_bool 10000000 ti), (Qlt_bool 5000000 ti);
    split; lra.
Qed.

Lemma india_sur_rate_mono t1 t2 : t1 <= t2 -> india_sur_rate t1 <= india_sur_rate t2.
Proof.
  intros H. unfold india_sur_rate.
  case_lt 20000000 t1; case_lt 10000000 t1; case_lt 5000000 t1;
    case_lt 20000000 t2; case_lt 10000000 t2; case_lt 5000000 t2; lra.
Qed.

(** X12.  Taiwan: for non-negative earnings the taxable total is the total
    compensation less half of what is earned above 3,000,000 (RSUs are not
    exempted), and with rates that are not negative the exemption never
    raises the tax above the tax of the whole total compensation. *)
Theorem taiwan_exemption (brackets : list Bracket) (earned y1_rsu : Q) :
  rates_nonneg brackets = true -> 0 <= earned ->
  taiwan_taxable_total earned y1_rsu ==
    total_comp_of earned y1_rsu - (1 # 2) * Qmax (earned - 3000000) 0 /\
  taiwan_taxable_total earned y1_rsu <= total_comp_of earned y1_rsu /\
  fst (apply_progressive brackets (taiwan_taxable_total earned y1_rsu))
    <= fst (apply_progressive brackets (total_comp_of earned y1_rsu)).
Proof.
  intros Hr He.
  assert (Ht : taiwan_taxable_total earned y1_rsu ==
               total_comp_of earned y1_rsu - (1 # 2) * Qmax (earned - 3000000) 0).
  { unfold taiwan_taxable_total, total_comp_of.
    destruct (Q.max_spec (earned - 3000000) 0) as [[Hm ->] | [Hm ->]];
      destruct (py_max_cases (earned - 3000000) 0) as [[Ha Ea] | [Ha Ea]]; rewrite Ea;
      match goal with
      | |- context [py_max ?x 0] =>
          destruct (py_max_cases x 0) as [[Hb Eb] | [Hb Eb]]; rewrite Eb
      end; lra. }
  assert (Hle : taiwan_taxable_total earned y1_rsu <= total_comp_of earned y1_rsu).
  { rewrite Ht. destruct (Q.max_spec (earned - 3000000) 0) as [[Hm ->] | [Hm ->]]; lra. }
  split; [exact Ht | split; [exact Hle |]].
  apply apply_progressive_mono; [apply rates_nonneg_Forall, Hr | exact Hle].
Qed.

Lemma taiwan_exemption_witness :
  taiwan_taxable_total 4000000 500000 ==
    total_comp_of 4000000 500000 - (1 # 2) * Qmax (4000000 - 3000000) 0 /\
  taiwan_taxable_total 4000000 500000 <= total_comp_of 4000000 500000 /\
  fst (apply_progressive tw_default (taiwan_taxable_total 4000000 500000))
    <= fst (apply_progressive tw_default (total_comp_of 4000000 500000)).
Proof.
  apply (taiwan_exemption tw_default 4000000 500000); [reflexivity | discriminate].
Defined.

(** X13.  India: with rates that are not negative, the local tax (base tax
    plus surcharge plus cess) never decreases when the total compensation
    grows, and it is never below the base tax. *)
Theorem india_tax_monotone (in_brackets : list Bracket) (tc1 tc2 : Q) :
  rates_nonneg in_brackets = true -> tc1 <= tc2 ->
  base_tax (india_tax in_brackets tc1) <= local_tax (india_tax in_brackets tc1) /\
  local_tax (india_tax in_brackets tc1) <= local_tax (india_tax in_brackets tc2).
Proof.
  intros Hr H12. apply rates_nonneg_Forall in Hr.
  unfold india_tax. simpl.
  pose proof (apply_progressive_mono in_brackets tc1 tc2 Hr H12) as Hb.
  assert (H0 : 0 <= fst (apply_progressive in_brackets tc1)).
  { rewrite <- (apply_progressive_le0_tax in_brackets (Qmin 0 tc1)).
    - apply apply_progressive_mono; [exact Hr |].
      destruct (Q.min_spec 0 tc1) as [[? ->] | [? ->]]; lra.
    - destruct (Q.min_spec 0 tc1) as [[? ->] | [? ->]]; lra. }
  pose proof (india_sur_rate_range tc1) as [Hs1 _].
  pose proof (india_sur_rate_mono tc1 tc2 H12) as Hs.
  set (B1 := fst (apply_progressive in_brackets tc1)) in *.
  set (B2 := fst (apply_progressive in_brackets tc2)) in *.
  set (s1 := india_sur_rate tc1) in *. set (s2 := india_sur_rate tc2) in *.
  assert (P1 : 0 <= B1 * s1) by (apply Qmult_le_0_compat; lra).
  assert (P2 : 0 <= (B2 - B1) * s2) by (apply Qmult_le_0_compat; lra).
  assert (P3 : 0 <= B1 * (s2 - s1)) by (apply Qmult_le_0_compat; lra).
  split; lra.
Qed.

Lemma india_tax_monotone_witness :
  base_tax (india_tax in_default 5000000) <= local_tax (india_tax in_default 5000000) /\
  local_tax (india_tax in_default 5000000) <= local_tax (india_tax in_default 5000001).
Proof.
  apply (india_tax_monotone in_default 5000000 5000001); [reflexivity | discriminate].
Defined.

(** X14.  India: there is no marginal relief at the first surcharge
    threshold.  With rates that are not negative, going from 5,000,000 to
    5,000,000 + d (d up to 5,000,000) changes the net by at most d minus
    10.4% of the base tax at 5,000,000 (the 10% surcharge with its 4%
    cess), so the net falls whenever that base tax exceeds d / 0.104. *)
Theorem india_surcharge_cliff (in_brackets : list Bracket) (d : Q) :
  rates_nonneg in_brackets = true -> 0 < d -> d <= 5000000 ->
  local_net (india_tax in_brackets (5000000 + d))
    <= local_net (india_tax in_brackets 5000000) + d
       - (104 # 1000) * base_tax (india_tax in_brackets 5000000).
Proof.
  intros Hr Hd Hd'. apply rates_nonneg_Forall in Hr.
  unfold india_tax, india_sur_rate. simpl.
  pose proof (apply_progressive_mono in_brackets 5000000 (5000000 + d) Hr ltac:(lra)) as Hb.
  case_lt 20000000 (5000000 + d); [lra |].
  case_lt 10000000 (5000000 + d); [lra |].
  case_lt 5000000 (5000000 + d); [| lra].
  change (Qlt_bool 20000000 5000000) with false.
  change (Qlt_bool 10000000 5000000) with false.
  change (Qlt_bool 5000000 5000000) with false. cbv iota.
  lra.
Qed.

Lemma india_surcharge_cliff_witness :
  local_net (india_tax in_default (5000000 + 1))
    <= local_net (india_tax in_default 5000000) + 1
       - (104 # 1000) * base_tax (india_tax in_default 5000000).
Proof.
  apply (india_surcharge_cliff in_default 1); [reflexivity | reflexivity | discriminate].
Defined.

(** The USD figures of a non-US branch with [fx > 0]. *)
Lemma local_layer_usd country fx earned y1_rsu brackets us_brackets :
  is_united_states country = false -> 0 < fx ->
  let l := Page.local_layer country fx earned y1_rsu brackets us_brackets in
  Page.earned_usd l == earned / fx /\
  Page.rsu_usd l == y1_rsu / fx /\
  Page.local_tax_usd l == Page.local_tax l / fx /\
  Page.local_net_usd l == Page.local_net l / fx /\
  Page.local_tax_usd l + Page.local_net_usd l == Page.earned_usd l + Page.rsu_usd l.
Proof.
  intros Hc Hfx. cbv zeta.
  assert (Hw : forall t n, t + n == earned + y1_rsu ->
    let l := Page.with_usd fx earned y1_rsu t n in
    Page.earned_usd l == earned / fx /\
    Page.rsu_usd l == y1_rsu / fx /\
    Page.local_tax_usd l == Page.local_tax l / fx /\
    Page.local_net_usd l == Page.local_net l / fx /\
    Page.local_tax_usd l + Page.local_net_usd l == Page.earned_usd l + Page.rsu_usd l).
  { intros t n Hb. cbv zeta. unfold Page.with_usd.
    case_lt 0 fx; [| lra]. simpl.
    repeat split; try reflexivity.
    assert (E1 : t / fx + n / fx == (t + n) / fx) by (field; lra).
    assert (E2 : earned / fx + y1_rsu / fx == (earned + y1_rsu) / fx) by (field; lra).
    rewrite E1, E2, Hb. reflexivity. }
  destruct country; try discriminate; unfold Page.local_layer;
    try (apply Hw; unfold total_comp_of; lra).
  unfold india_local, india_tax. simpl. apply Hw. unfold total_comp_of. lra.
Qed.

(** X15.  Every branch of the country section keeps tax and net in
    balance with the total compensation, and for a work country other than
    the United States with [fx > 0] the four USD figures are the local
    figures divided by [fx], so the balance also holds in USD. *)
Theorem local_layer_balance (country : Country) (fx earned y1_rsu : Q)
    (brackets us_brackets : list Bracket) :
  is_united_states country = false -> 0 < fx ->
  let l := Page.local_layer country fx earned y1_rsu brackets us_brackets in
  Page.local_tax l + Page.local_net l == total_comp_of earned y1_rsu /\
  Page.earned_usd l * fx == earned /\
  Page.rsu_usd l * fx == y1_rsu /\
  Page.local_tax_usd l * fx == Page.local_tax l /\
  Page.local_net_usd l * fx == Page.local_net l /\
  Page.local_tax_usd l + Page.local_net_usd l == Page.earned_usd l + Page.rsu_usd l.
Proof.
  intros Hc Hfx. cbv zeta.
  assert (Hw : forall t n, t + n == total_comp_of earned y1_rsu ->
    let l := Page.with_usd fx earned y1_rsu t n in
    Page.local_tax l + Page.local_net l == total_comp_of earned y1_rsu /\
    Page.earned_usd l * fx == earned /\
    Page.rsu_usd l * fx == y1_rsu /\
    Page.local_tax_usd l * fx == Page.local_tax l /\
    Page.local_net_usd l * fx == Page.local_net l /\
    Page.local_tax_usd l + Page.local_net_usd l == Page.earned_usd l + Page.rsu_usd l).
  { intros t n Hb. cbv zeta. unfold Page.with_usd.
    case_lt 0 fx; [| lra]. simpl. unfold total_comp_of in Hb.
    repeat split; try exact Hb; try (field; lra).
    assert (E1 : t / fx + n / fx == (t + n) / fx) by (field; lra).
    assert (E2 : earned / fx + y1_rsu / fx == (earned + y1_rsu) / fx) by (field; lra).
    rewrite E1, E2, Hb. reflexivity. }
  destruct country; try discriminate; unfold Page.local_layer;
    try (apply Hw; unfold total_comp_of; lra).
  unfold india_local, india_tax. simpl. apply Hw. unfold total_comp_of. lra.
Qed.

Lemma local_layer_balance_witness :
  let l := Page.local_layer Taiwan 32 4000000 500000 tw_default us_brackets_default in
  Page.local_tax l + Page.local_net l == total_comp_of 4000000 500000 /\
  Page.earned_usd l * 32 == 4000000 /\
  Page.rsu_usd l * 32 == 500000 /\
  Page.local_tax_usd l * 32 == Page.local_tax l /\
  Page.local_net_usd l * 32 == Page.local_net l /\
  Page.local_tax_usd l + Page.local_net_usd l == Page.earned_usd l + Page.rsu_usd l.
Proof.
  apply (local_layer_balance Taiwan 32 4000000 500000 tw_default us_brackets_default);
    reflexivity.
Defined.

(** * Further properties of the US overlay *)

(** X16.  Whatever the inputs, the credit and the tax due split the
    tentative tax, the tax due is the excess of the tentative tax over the
    local tax and is never negative, the combined tax is the larger of the
    local tax and the tentative tax, and the overlay never raises the net
    above the net after local tax. *)
Theorem overlay_pays_higher_tax
    (earned_usd rsu_usd local_tax_usd feie std_ded : Q) (us_brackets : list Bracket) :
  let o := us_overlay_calc earned_usd rsu_usd local_tax_usd feie std_ded us_brackets in
  ftc o + us_due o == us_tax o /\
  us_due o == Qmax (us_tax o - local_tax_usd) 0 /\
  0 <= us_due o /\
  combined_tax o == Qmax local_tax_usd (us_tax o) /\
  combined_net o <= (earned_usd + rsu_usd) - local_tax_usd.
Proof.
  cbv zeta. unfold us_overlay_calc.
  destruct (apply_progressive us_brackets
              (py_max (earned_usd + rsu_usd - feie - std_ded) 0)) as [tax rows].
  simpl.
  destruct (py_min_cases local_tax_usd tax) as [[Hm Em] | [Hm Em]]; rewrite Em;
    match goal with
    | |- context [py_max ?x 0] =>
        destruct (py_max_cases x 0) as [[Hx Ex] | [Hx Ex]]; rewrite Ex
    end;
    destruct (Q.max_spec (tax - local_tax_usd) 0) as [[H1 ->] | [H1 ->]];
    destruct (Q.max_spec local_tax_usd tax) as [[H2 ->] | [H2 ->]];
    repeat split; lra.
Qed.

(** X17.  When earned income plus RSUs does not exceed the exclusion plus
    the standard deduction and the local tax is not negative, there is no
    US tax at all: tentative tax 0, no slab rows, no credit used, nothing
    due, and the combined tax is the local tax. *)
Theorem overlay_within_exclusion
    (earned_usd rsu_usd local_tax_usd feie std_ded : Q) (us_brackets : list Bracket) :
  earned_usd + rsu_usd <= feie + std_ded -> 0 <= local_tax_usd ->
  let o := us_overlay_calc earned_usd rsu_usd local_tax_usd feie std_ded us_brackets in
  us_tax o = 0 /\ us_rows o = [] /\ ftc o == 0 /\ us_due o == 0 /\
  combined_tax o == local_tax_usd /\
  combined_net o == (earned_usd + rsu_usd) - local_tax_usd.
Proof.
  intros Hx Hl. cbv zeta. unfold us_overlay_calc.
  assert (Hz : py_max (earned_usd + rsu_usd - feie - std_ded) 0 <= 0).
  { destruct (py_max_cases (earned_usd + rsu_usd - feie - std_ded) 0)
      as [[H ->] | [H ->]]; lra. }
  rewrite (apply_progressive_le0 us_brackets _ Hz). simpl.
  destruct (py_min_cases local_tax_usd 0) as [[Hm Em] | [Hm Em]]; rewrite Em;
    match goal with
    | |- context [py_max ?x 0] =>
        destruct (py_max_cases x 0) as [[Hy Ey] | [Hy Ey]]; rewrite Ey
    end;
    repeat split; lra.
Qed.

Lemma overlay_within_exclusion_witness :
  let o := us_overlay_calc 100000 30000 25000 126500 14600 us_brackets_default in
  us_tax o = 0 /\ us_rows o = [] /\ ftc o == 0 /\ us_due o == 0 /\
  combined_tax o == 25000 /\
  combined_net o == (100000 + 30000) - 25000.
Proof.
  apply (overlay_within_exclusion 100000 30000 25000 126500 14600 us_brackets_default);
    discriminate.
Defined.

(** X18.  The page end to end, for a work country other than the United
    States with the overlay switched on and [fx > 0]: the overlay figures
    are shown; the US taxable base is the gross earned income plus RSUs in
    USD less exclusion and deduction, floored at 0 (for Taiwan too, where
    the local layer taxes less than the gross); the combined net is the
    local net in USD less the US tax due; and the combined tax, back in
    local currency, is the local tax plus the US tax due. *)
Theorem page_overlay_consistent (country : Country)
    (fx feie std_ded earned y1_rsu : Q) (brackets us_brackets : list Bracket) :
  is_united_states country = false -> 0 < fx ->
  let l := Page.local_layer country fx earned y1_rsu brackets us_brackets in
  exists o,
    Page.overlay country true fx feie std_ded earned y1_rsu brackets us_brackets
      = OverlayShown o /\
    us_taxable o == Qmax ((earned + y1_rsu) / fx - feie - std_ded) 0 /\
    combined_net o == Page.local_net_usd l - us_due o /\
    combined_tax o * fx == Page.local_tax l + us_due o * fx.
Proof.
  intros Hc Hfx. cbv zeta.
  destruct (local_layer_usd country fx earned y1_rsu brackets us_brackets Hc Hfx)
    as (He & Hr & Ht & Hn & Hbal).
  unfold Page.overlay, us_overlay_block. rewrite Hc.
  case_le fx 0; [lra |].
  remember (Page.local_layer country fx earned y1_rsu brackets us_brackets) as l eqn:El.
  clear El. eexists. split; [reflexivity |].
  unfold us_overlay_calc.
  destruct (apply_progressive us_brackets _) as [tax rows]. simpl.
  split; [| split].
  - rewrite py_max_Qmax.
    assert (Eb : Page.earned_usd l + Page.rsu_usd l - feie - std_ded
                 == (earned + y1_rsu) / fx - feie - std_ded).
    { rewrite He, Hr. field. lra. }
    destruct (Q.max_spec (Page.earned_usd l + Page.rsu_usd l - feie - std_ded) 0)
      as [[H1 ->] | [H1 ->]];
      destruct (Q.max_spec ((earned + y1_rsu) / fx - feie - std_ded) 0)
        as [[H2 ->] | [H2 ->]]; lra.
  - lra.
  - assert (Hb : Page.local_tax_usd l * fx == Page.local_tax l)
      by (rewrite Ht; field; lra).
    generalize (py_max (tax - py_min (Page.local_tax_usd l) tax) 0). intros d. lra.
Qed.

Lemma page_overlay_consistent_witness :
  let l := Page.local_layer Taiwan 32 4000000 500000 tw_default us_brackets_default in
  exists o,
    Page.overlay Taiwan true 32 126500 14600 4000000 500000 tw_default us_brackets_default
      = OverlayShown o /\
    us_taxable o == Qmax ((4000000 + 500000) / 32 - 126500 - 14600) 0 /\
    combined_net o == Page.local_net_usd l - us_due o /\
    combined_tax o * 32 == Page.local_tax l + us_due o * 32.
Proof.
  apply (page_overlay_consistent Taiwan 32 126500 14600 4000000 500000
           tw_default us_brackets_default); reflexivity.
Defined.

(** * The loop against the closed form *)

Lemma bracket_formula_exhausted df : forall prev a,
  caps_ascending df = true -> head_ge prev df -> a <= prev ->
  bracket_formula df prev a == 0.
Proof.
  induction df as [| b df IH]; intros prev a Hs Hh Ha; simpl; [reflexivity |].
  simpl in Hh. destruct (Upper_Limit b) as [c |] eqn:Hc.
  - rewrite (IH c a (proj2 (proj1 (caps_ascending_cons b df) Hs))
               (head_ge_next b df c Hs Hc) ltac:(lra)).
    destruct (Q.min_spec a c) as [[H1 E1] | [H1 E1]]; rewrite E1;
      destruct (Q.max_spec 0 (a - prev)) as [[H2 E2] | [H2 E2]];
      destruct (Q.max_spec 0 (c - prev)) as [[H3 E3] | [H3 E3]];
      rewrite ?E2, ?E3; lra.
  - destruct (Q.max_spec 0 (a - prev)) as [[H2 E2] | [H2 E2]]; rewrite E2; lra.
Qed.

Lemma slab_amount_Qeq cap x y prev :
  x == y -> slab_amount cap x prev == slab_amount cap y prev.
Proof.
  intros E. unfold slab_amount. destruct cap as [c |].
  - destruct (py_min_cases x (c - prev)) as [[H1 E1] | [H1 E1]]; rewrite E1;
      destruct (py_min_cases y (c - prev)) as [[H2 E2] | [H2 E2]]; rewrite E2;
      destruct (py_max_cases 0 (c - prev)) as [[H3 E3] | [H3 E3]];
      destruct (py_max_cases 0 x) as [[H4 E4] | [H4 E4]];
      destruct (py_max_cases 0 y) as [[H5 E5] | [H5 E5]];
      rewrite ?E3, ?E4, ?E5; lra.
  - destruct (py_max_cases 0 x) as [[H4 E4] | [H4 E4]];
      destruct (py_max_cases 0 y) as [[H5 E5] | [H5 E5]];
      rewrite ?E4, ?E5; lra.
Qed.

(** The tax does not depend on how the amount is written as a fraction. *)
Lemma tax_of_Qeq df : forall prev x y,
  x == y -> tax_of df x prev == tax_of df y prev.
Proof.
  induction df as [| b df IH]; intros prev x y E; [reflexivity |].
  rewrite !tax_of_step.
  pose proof (slab_amount_Qeq (Upper_Limit b) x y prev E) as Ea.
  set (ax := slab_amount (Upper_Limit b) x prev) in *.
  set (ay := slab_amount (Upper_Limit b) y prev) in *.
  rewrite (IH _ (x - ax) (y - ay)) by lra.
  rewrite Ea. reflexivity.
Qed.

Lemma tax_of_bracket_formula df : forall prev a,
  caps_ascending df = true -> head_ge prev df -> has_open df -> prev < a ->
  tax_of df (a - prev) prev == bracket_formula df prev a.
Proof.
  induction df as [| b df IH]; intros prev a Hs Hh Ho Ha; [inversion Ho |].
  rewrite tax_of_step. simpl bracket_formula. simpl in Hh.
  destruct (Upper_Limit b) as [c |] eqn:Hc.
  - assert (Eamt : slab_amount (Some c) (a - prev) prev == Qmax 0 (Qmin a c - prev)
                   /\ slab_amount (Some c) (a - prev) prev == Qmin a c - prev).
    { unfold slab_amount.
      destruct (py_max_cases 0 (py_min (a - prev) (c - prev))) as [[H Em] | [H Em]];
        destruct (py_min_cases (a - prev) (c - prev)) as [[H' Em'] | [H' Em']];
        rewrite ?Em, ?Em' in *;
        destruct (Q.min_spec a c) as [[H1 E1] | [H1 E1]]; rewrite E1;
        destruct (Q.max_spec 0 (a - prev)) as [[H2 E2] | [H2 E2]];
        destruct (Q.max_spec 0 (c - prev)) as [[H3 E3] | [H3 E3]];
        rewrite ?E2, ?E3; split; lra. }
    destruct Eamt as [E1 E2].
    pose proof (proj2 (proj1 (caps_ascending_cons b df) Hs)) as Hs'.
    pose proof (head_ge_next b df c Hs Hc) as Hh'.
    destruct (Qlt_le_dec c a) as [Hlt | Hge].
    + assert (Ho' : has_open df).
      { inversion Ho as [? ? Hb | ? ? Hb]; subst; [congruence | exact Hb]. }
      assert (Er : a - prev - slab_amount (Some c) (a - prev) prev == a - c).
      { rewrite E2. destruct (Q.min_spec a c) as [[? ->] | [? ->]]; lra. }
      pose proof (IH c a Hs' Hh' Ho' Hlt) as Hrec.
      assert (Et : tax_of df (a - prev - slab_amount (Some c) (a - prev) prev) c
                   == tax_of df (a - c) c).
      { apply tax_of_Qeq, Er. }
      rewrite Et, Hrec, E1. lra.
    + rewrite (bracket_formula_exhausted df c a Hs' Hh' Hge).
      rewrite tax_of_nonpos.
      * rewrite E1. lra.
      * rewrite E2. destruct (Q.min_spec a c) as [[? ->] | [? ->]]; lra.
  - rewrite tax_of_nonpos.
    + rewrite (slab_amount_open (a - prev) prev ltac:(lra)).
      destruct (Q.max_spec 0 (a - prev)) as [[H2 E2] | [H2 E2]]; rewrite E2; lra.
    + rewrite (slab_amount_open (a - prev) prev ltac:(lra)). lra.
Qed.

(** X19.  When no cap of the raw table is negative, the loop computes the
    usual closed form of a progressive tax on the sanitized table: the sum,
    over the slabs in cap order, of the slab's rate times the part of the
    amount that lies between the previous cap and the slab's cap. *)
Theorem apply_progressive_closed_form (df : list Bracket) (a : Q) :
  caps_nonneg df = true -> 0 < a ->
  fst (apply_progressive df a) == bracket_formula (sanitize_brackets df) 0 a.
Proof.
  intros Hc Ha. rewrite apply_progressive_tax_of by exact Ha.
  rewrite <- (tax_of_bracket_formula (sanitize_brackets df) 0 a).
  - apply tax_of_Qeq. lra.
  - apply sanitize_caps_ascending.
  - apply sanitize_head_ge, Hc.
  - apply sanitize_has_open.
  - exact Ha.
Qed.

Lemma apply_progressive_closed_form_witness :
  fst (apply_progressive us_brackets_default 80000)
  == bracket_formula (sanitize_brackets us_brackets_default) 0 80000.
Proof.
  apply (apply_progressive_closed_form us_brackets_default 80000); reflexivity.
Defined.

(** * Whatever the sort does with equal caps *)

Lemma sanitize_with_cons srt b df :
  sanitize_brackets_with srt (b :: df) =
  let out := srt (map sanitize_row (b :: df)) in
  if Nat.eqb (count_na out) 0
  then out ++ [mkBracket None (last (map Rate out) (Some 0))]
  else out.
Proof. reflexivity. Qed.

(** With [sort_brackets] for the sort these are the functions above. *)
Lemma sanitize_with_model df :
  sanitize_brackets_with sort_brackets df = sanitize_brackets df.
Proof. destruct df; reflexivity. Qed.

Lemma apply_progressive_with_model df a :
  apply_progressive_with sort_brackets df a = apply_progressive df a.
Proof. unfold apply_progressive_with. rewrite sanitize_with_model. reflexivity. Qed.

Lemma sort_brackets_sorts : sorts sort_brackets.
Proof. split; [apply sort_brackets_perm | apply caps_ascending_sort]. Qed.

Lemma insert_bracket_rev_perm x l : Permutation (insert_bracket_rev x l) (x :: l).
Proof.
  induction l as [| y l IH]; simpl; [apply Permutation_refl |].
  destruct (cap_lt (Upper_Limit x) (Upper_Limit y)); [apply Permutation_refl |].
  apply perm_trans with (y :: x :: l); [apply perm_skip, IH | apply perm_swap].
Qed.

Lemma caps_ascending_insert_rev x l :
  caps_ascending l = true -> caps_ascending (insert_bracket_rev x l) = true.
Proof.
  induction l as [| y l IH]; intros Hs; [reflexivity |].
  simpl insert_bracket_rev. unfold cap_lt.
  destruct (cap_le (Upper_Limit y) (Upper_Limit x)) eqn:E; simpl negb; cbv iota.
  - apply caps_ascending_cons in Hs. destruct Hs as [Hh Hs].
    apply caps_ascending_cons. split; [| apply IH, Hs].
    destruct l as [| z l]; simpl; [exact E |].
    unfold cap_lt. destruct (cap_le (Upper_Limit z) (Upper_Limit x)); simpl;
      [exact Hh | exact E].
  - apply caps_ascending_cons. split; [apply cap_le_total, E | exact Hs].
Qed.

Lemma sort_brackets_rev_sorts : sorts sort_brackets_rev.
Proof.
  split; intros l; induction l as [| x l IH]; simpl.
  - apply perm_nil.
  - apply perm_trans with (x :: sort_brackets_rev l);
      [apply insert_bracket_rev_perm | apply perm_skip, IH].
  - reflexivity.
  - apply caps_ascending_insert_rev, IH.
Qed.

(** On a table in which no two rows share a cap every sort by cap gives
    the result of [sort_brackets]. *)
Lemma sort_agrees srt l : sorts srt -> caps_inj l -> srt l = sort_brackets l.
Proof.
  intros [Hp Hs] Hinj. apply sorted_perm_unique.
  - apply Hs.
  - apply caps_ascending_sort.
  - apply perm_trans with l; [apply Hp | apply Permutation_sym, sort_brackets_perm].
  - apply (caps_inj_perm l); [apply Permutation_sym, Hp | exact Hinj].
Qed.

Lemma sanitize_with_agrees srt df :
  sorts srt -> caps_inj df -> sanitize_brackets_with srt df = sanitize_brackets df.
Proof.
  intros Hsrt Hinj. destruct df as [| b df]; [reflexivity |].
  rewrite sanitize_with_cons, sanitize_brackets_cons. cbv zeta.
  rewrite (sort_agrees srt _ Hsrt (caps_inj_map _ Hinj)). reflexivity.
Qed.

Lemma same_cap_open a r :
  same_cap a (mkBracket None r) = true -> Upper_Limit a = None.
Proof.
  unfold same_cap. simpl. destruct (Upper_Limit a); simpl; intros H;
    [discriminate | reflexivity].
Qed.

(** Sanitizing keeps caps distinct: the terminal row is only added when no
    other row is open-ended. *)
Lemma sanitize_caps_inj df : caps_inj df -> caps_inj (sanitize_brackets df).
Proof.
  intros Hinj. destruct df as [| b0 df].
  - intros a b [<- | []] [<- | []] _. reflexivity.
  - rewrite sanitize_brackets_cons. cbv zeta.
    set (out := sort_brackets (map sanitize_row (b0 :: df))).
    assert (Hout : caps_inj out).
    { apply (caps_inj_perm (map sanitize_row (b0 :: df)));
        [apply Permutation_sym, sort_brackets_perm | apply caps_inj_map, Hinj]. }
    destruct (Nat.eqb (count_na out) 0) eqn:E; [| exact Hout].
    apply Nat.eqb_eq in E.
    assert (Hno : forall a, In a out -> Upper_Limit a <> None).
    { intros a Ha Hc. apply (has_open_count_na out); [| exact E].
      apply Exists_exists. exists a. split; assumption. }
    intros a b Ha Hb Hs.
    apply in_app_or in Ha. apply in_app_or in Hb.
    destruct Ha as [Ha | [<- | []]], Hb as [Hb | [<- | []]].
    + apply Hout; assumption.
    + exfalso. apply (Hno a Ha). eapply same_cap_open, Hs.
    + exfalso. apply (Hno b Hb). rewrite same_cap_sym in Hs. eapply same_cap_open, Hs.
    + reflexivity.
Qed.

Lemma sanitize_with_has_open srt df : has_open (sanitize_brackets_with srt df).
Proof.
  destruct df as [| b df].
  - apply Exists_cons_hd. reflexivity.
  - rewrite sanitize_with_cons. cbv zeta.
    destruct (Nat.eqb _ 0) eqn:E.
    + apply has_open_app_open.
    + apply count_na_pos_has_open. apply Nat.eqb_neq, E.
Qed.

Lemma sanitize_with_rates_nonneg srt df :
  sorts srt -> rates_ge 0 df -> rates_ge 0 (sanitize_brackets_with srt df).
Proof.
  intros [Hp _] H. destruct df as [| b df].
  - constructor; [unfold rate_of; simpl; lra | constructor].
  - rewrite sanitize_with_cons. cbv zeta.
    assert (Hout : rates_ge 0 (srt (map sanitize_row (b :: df)))).
    { apply (Permutation_Forall (Permutation_sym (Hp _))). apply Forall_map.
      eapply Forall_impl; [| exact H]. intros x. apply sanitize_row_rate_nonneg. }
    destruct (Nat.eqb _ 0); [| exact Hout].
    apply Forall_app. split; [exact Hout |].
    constructor; [| constructor].
    apply (last_rate_Forall (fun q => 0 <= q)); [lra | exact Hout].
Qed.

Lemma apply_progressive_with_tax_of srt df a :
  0 < a ->
  fst (apply_progressive_with srt df a) == tax_of (sanitize_brackets_with srt df) a 0.
Proof.
  intros Ha. unfold apply_progressive_with. case_le a 0; [lra |].
  rewrite slab_loop_tax. lra.
Qed.

Lemma apply_progressive_with_le0 srt df a :
  a <= 0 -> apply_progressive_with srt df a = (0, []).
Proof.
  intros Ha. unfold apply_progressive_with.
  apply Qle_bool_iff in Ha. rewrite Ha. reflexivity.
Qed.

(** C4, as the code has it.  Whatever the sort does with rows of equal
    cap: for every raw table whose rates are all at most 100 and in which
    no two rows share a cap, the sanitized table does not depend on the
    sort, and sanitizing it again gives it back: the rate convention, the
    sort and the terminal-row synthesis change nothing the second time. *)
Theorem sanitize_idempotent (srt : list Bracket -> list Bracket) (df : list Bracket) :
  sorts srt -> rates_le_100 df = true -> distinct_caps df = true ->
  sanitize_brackets_with srt df = sanitize_brackets df /\
  sanitize_brackets_with srt (sanitize_brackets_with srt df)
    = sanitize_brackets_with srt df /\
  sanitize_brackets (sanitize_brackets df) = sanitize_brackets df.
Proof.
  intros Hsrt Hr Hd. apply distinct_caps_inj in Hd.
  assert (Hfix : sanitize_brackets (sanitize_brackets df) = sanitize_brackets df).
  { apply sanitize_fixed_point.
    - apply sanitize_rates_fixed, Hr.
    - apply sanitize_caps_ascending.
    - apply has_open_count_na, sanitize_has_open. }
  split; [apply sanitize_with_agrees; assumption | split; [| exact Hfix]].
  rewrite (sanitize_with_agrees srt df Hsrt Hd).
  rewrite (sanitize_with_agrees srt _ Hsrt (sanitize_caps_inj df Hd)).
  exact Hfix.
Qed.

Lemma sanitize_idempotent_witness :
  let df := [mkBracket (Some 47150) (Some 12); mkBracket (Some 11600) (Some (1 # 10));
             mkBracket (Some 100525) None] in
  sanitize_brackets_with sort_brackets_rev df = sanitize_brackets df /\
  sanitize_brackets_with sort_brackets_rev (sanitize_brackets_with sort_brackets_rev df)
    = sanitize_brackets_with sort_brackets_rev df /\
  sanitize_brackets (sanitize_brackets df) = sanitize_brackets df.
Proof.
  apply (sanitize_idempotent sort_brackets_rev
           [mkBracket (Some 47150) (Some 12); mkBracket (Some 11600) (Some (1 # 10));
            mkBracket (Some 100525) None]);
    [apply sort_brackets_rev_sorts | reflexivity | reflexivity].
Defined.

(** Why C4 asks for distinct caps: with rates at most 100 but two rows of
    equal cap, a sort that reverses such rows undoes on the second pass
    what it did on the first. *)
Lemma tied_caps_break_idempotence :
  let df := [mkBracket (Some 100) (Some (1 # 10)); mkBracket (Some 100) (Some (2 # 10))] in
  sorts sort_brackets_rev /\
  rates_le_100 df = true /\
  schedule_eqb
    (sanitize_brackets_with sort_brackets_rev (sanitize_brackets_with sort_brackets_rev df))
    (sanitize_brackets_with sort_brackets_rev df) = false.
Proof.
  cbv zeta. split; [apply sort_brackets_rev_sorts | split; reflexivity].
Qed.

(** C1, as the code has it.  Whatever the sort does with rows of equal
    cap: for every valid bracket schedule (rates in [0,1], caps ascending)
    and amounts [0 <= a1 <= a2], the tax at [a1] is at most the tax at
    [a2]; and when moreover the rates never decrease from one bracket to
    the next and no two rows share a cap, the average rate [tax / a] at
    [a1 > 0] is at most the average rate at [a2]. *)
Theorem progressive_tax_monotone (srt : list Bracket -> list Bracket)
    (S : list Bracket) (a1 a2 : Q) :
  sorts srt -> valid_schedule S = true -> 0 <= a1 -> a1 <= a2 ->
  fst (apply_progressive_with srt S a1) <= fst (apply_progressive_with srt S a2) /\
  (rates_ascending S = true -> distinct_caps S = true -> 0 < a1 ->
   fst (apply_progressive_with srt S a1) / a1
     <= fst (apply_progressive_with srt S a2) / a2).
Proof.
  intros Hsrt Hv H1 H12. split.
  - pose proof (sanitize_with_rates_nonneg srt S Hsrt (valid_rates_nonneg S Hv)) as Hr.
    destruct (Qlt_le_dec 0 a1) as [Hp | Hz].
    + rewrite !apply_progressive_with_tax_of by lra.
      apply tax_of_mono; [exact Hr | lra | exact H12].
    + rewrite (apply_progressive_with_le0 srt S a1 Hz). simpl.
      destruct (Qlt_le_dec 0 a2) as [Hp2 | Hz2].
      * rewrite apply_progressive_with_tax_of by lra. apply tax_of_nonneg, Hr.
      * rewrite (apply_progressive_with_le0 srt S a2 Hz2). simpl. lra.
  - intros Hasc Hd Hp. apply distinct_caps_inj in Hd.
    apply Qdiv_le_cross; [lra | lra |].
    rewrite !apply_progressive_with_tax_of by lra.
    rewrite (sanitize_with_agrees srt S Hsrt Hd).
    apply tax_of_star;
      [apply sanitize_has_open | apply sanitize_RatesAsc; assumption | exact Hp | exact H12].
Qed.

Lemma progressive_tax_monotone_witness :
  let S := [mkBracket (Some 50000) (Some (1 # 10)); mkBracket None (Some (2 # 10))] in
  fst (apply_progressive_with sort_brackets_rev S 40000)
    <= fst (apply_progressive_with sort_brackets_rev S 80000) /\
  fst (apply_progressive_with sort_brackets_rev S 40000) / 40000
    <= fst (apply_progressive_with sort_brackets_rev S 80000) / 80000.
Proof.
  cbv zeta.
  pose proof (progressive_tax_monotone sort_brackets_rev
                [mkBracket (Some 50000) (Some (1 # 10)); mkBracket None (Some (2 # 10))]
                40000 80000 sort_brackets_rev_sorts
                ltac:(reflexivity) ltac:(discriminate) ltac:(discriminate))
    as [Hmono Havg].
  split; [exact Hmono | apply Havg; reflexivity].
Defined.

(** Why the second part of C1 asks for distinct caps: with two rows of
    equal cap and ascending rates, a sort that reverses such rows puts the
    higher rate on the slab and the lower one on the terminal row, and the
    average rate falls from 0.2 at 100 to 0.15 at 200. *)
Lemma tied_caps_break_progressivity :
  let S := [mkBracket (Some 100) (Some (1 # 10)); mkBracket (Some 100) (Some (2 # 10))] in
  sorts sort_brackets_rev /\
  valid_schedule S = true /\ rates_ascending S = true /\
  fst (apply_progressive_with sort_brackets_rev S 100) / 100 == 2 # 10 /\
  fst (apply_progressive_with sort_brackets_rev S 200) / 200 == 15 # 100.
Proof.
  cbv zeta. split; [apply sort_brackets_rev_sorts | repeat split].
Qed.
